(** * Sorting.h: a shallow embedding of the Mist sorting primitives

    The header [include/algorithms/Sorting.h] implements [IsSorted], two
    overloads of a bottom-up [MergeSort], an explicit-stack [QuickSort], a
    binary-search [InsertionSort] and a counting [BucketSort].  Every
    function is embedded as it is written: buffers are lists that are read
    and written by index, loops are fuelled recursions that carry the loop
    variables of the source, and the three ways in which a call can stop
    without a value (a failed [MIST_ASSERT], an element access outside the
    buffer, a loop that is still running when the fuel is gone) are three
    constructors of [error].

    Container sizes and [size_t] indices are unbounded numbers ([nat], or [Z]
    where the source subtracts): every index expression of the header is at
    most twice the container size, so no wrap-around is reachable for a
    container that fits in an address space. *)

From Stdlib Require Import ZArith Lia.
From stdpp Require Import base list sorting strings gmap.

Open Scope Z_scope.

(** ** Results of a call *)

Inductive error : Type :=
  | AssertionFailure   (* a MIST_ASSERT did not hold *)
  | OutOfBounds        (* an element was read or written outside its buffer *)
  | OutOfFuel.         (* the model stopped a loop that was still running *)

Inductive result (T : Type) : Type :=
  | Ok (v : T)
  | Err (e : error).
Arguments Ok {T} v.
Arguments Err {T} e.

#[export] Instance result_ret : MRet result := λ T v, Ok v.
#[export] Instance result_bind : MBind result := λ T U k m,
  match m with
  | Ok v => k v
  | Err e => Err e
  end.

(** Modelled from the spec: the macro [MIST_ASSERT] of
    [Mist_Common/include/UtilityMacros.h]; a violated contract is fatal and
    the call stops at once. *)
Definition MIST_ASSERT (b : bool) : result unit :=
  if b then Ok tt else Err AssertionFailure.

(** ** Element types

    The templates use [operator<], [operator<=] and [operator>] of the
    element type, and value-initialise the elements of the scratch buffer. *)

Class Ordered (A : Type) : Type := {
  elt_lt : A → A → bool;
  elt_le : A → A → bool;
  elt_gt : A → A → bool;
  elt_default : A
}.

(** The three operators describe one strict weak ordering. *)
Class StrictWeak (A : Type) {ord : Ordered A} : Prop := {
  elt_lt_irrefl : ∀ a : A, elt_lt a a = false;
  elt_lt_trans : ∀ a b c : A,
    elt_lt a b = true → elt_lt b c = true → elt_lt a c = true;
  elt_nlt_trans : ∀ a b c : A,
    elt_lt a b = false → elt_lt b c = false → elt_lt a c = false;
  elt_le_lt : ∀ a b : A, elt_le a b = negb (elt_lt b a);
  elt_gt_lt : ∀ a b : A, elt_gt a b = elt_lt b a
}.

(** [size_t] and the other integer element types of the tests. *)
#[export] Instance Z_Ordered : Ordered Z :=
  {| elt_lt := Z.ltb; elt_le := Z.leb; elt_gt := Z.gtb; elt_default := 0 |}.

(** Records sorted by a numeric key: the operators look at the key only. *)
#[export] Instance keyed_Ordered : Ordered (Z * string) :=
  {| elt_lt := λ a b, fst a <? fst b;
     elt_le := λ a b, fst a <=? fst b;
     elt_gt := λ a b, fst a >? fst b;
     elt_default := (0, EmptyString) |}.

(** Two elements are equivalent when neither is less than the other. *)
Definition elt_equiv `{Ordered A} (a b : A) : bool :=
  negb (elt_lt a b) && negb (elt_lt b a).

(** ** Buffers *)

Section buffers.
Context {A : Type}.

(** [buf[i]] as an rvalue, for a [size_t] index. *)
Definition rd (buf : list A) (i : nat) : result A :=
  match buf !! i with
  | Some x => Ok x
  | None => Err OutOfBounds
  end.

(** [buf[i] = x]. *)
Definition wr (buf : list A) (i : nat) (x : A) : result (list A) :=
  if decide (i < length buf)%nat then Ok (<[i:=x]> buf) else Err OutOfBounds.

(** [*it] for an iterator at offset [i] from [begin]; the offset is signed
    because the source computes [end - 1] before it looks at the range. *)
Definition deref (buf : list A) (i : Z) : result A :=
  if decide (0 ≤ i) then rd buf (Z.to_nat i) else Err OutOfBounds.

(** [*it = x]. *)
Definition assign (buf : list A) (i : Z) (x : A) : result (list A) :=
  if decide (0 ≤ i) then wr buf (Z.to_nat i) x else Err OutOfBounds.

(** [std::swap] of the elements under two iterators. *)
Definition swap (buf : list A) (i j : Z) : result (list A) :=
  a ← deref buf i;
  b ← deref buf j;
  buf1 ← assign buf i b;
  assign buf1 j a.
End buffers.

(** ** IsSorted (Sorting.h, lines 36-50) *)

Section IsSorted.
Context {A : Type} {ord : Ordered A}.

(** The [for] loop: [begin] is the element under [begin], [rest] the
    elements from [next] up to [end]. *)
Fixpoint IsSorted_loop (begin : A) (rest : list A) : bool :=
  match rest with
  | [] => true
  | next :: rest' =>
      if elt_lt next begin then false else IsSorted_loop next rest'
  end.

Definition IsSorted (range : list A) : result bool :=
  _ ← MIST_ASSERT (negb (length range =? 0)%nat);
  match range with
  | [] => Err OutOfBounds
  | begin :: rest => Ok (IsSorted_loop begin rest)
  end.
End IsSorted.

(** ** MergeSort (Sorting.h, lines 61-122 and 130-194)

    The two overloads run the same statements, one on the
    elements of the collection and one on [begin[i]]; [readTarget] and
    [writeTarget] are the two buffers, exchanged after every pass. *)

Section MergeSort.
Context {A : Type} {ord : Ordered A}.

(** [Detail::Min]. *)
Definition Min (left right : nat) : nat :=
  if (left <? right)%nat then left else right.

(** The innermost [while]: one pair of blocks is merged into the write
    buffer at [writeHead]. *)
Fixpoint merge_loop (fuel : nat) (readTarget writeTarget : list A)
    (first last firstNext lastNext writeHead : nat)
    : result (list A * nat) :=
  if negb (firstNext =? lastNext)%nat || negb (first =? last)%nat then
    match fuel with
    | O => Err OutOfFuel
    | S fuel' =>
        if (firstNext =? lastNext)%nat then
          x ← rd readTarget first;
          w ← wr writeTarget writeHead x;
          merge_loop fuel' readTarget w (S first) last firstNext lastNext
            (S writeHead)
        else if (first =? last)%nat then
          x ← rd readTarget firstNext;
          w ← wr writeTarget writeHead x;
          merge_loop fuel' readTarget w first last (S firstNext) lastNext
            (S writeHead)
        else
          r ← rd readTarget firstNext;
          l ← rd readTarget first;
          if elt_lt r l then
            w ← wr writeTarget writeHead r;
            merge_loop fuel' readTarget w first last (S firstNext) lastNext
              (S writeHead)
          else
            w ← wr writeTarget writeHead l;
            merge_loop fuel' readTarget w (S first) last firstNext lastNext
              (S writeHead)
    end
  else Ok (writeTarget, writeHead).

(** The [for] loop over the block pairs of one pass. *)
Fixpoint pair_loop (fuel fuel0 : nat) (readTarget writeTarget : list A)
    (collectionSize blockSize numBlocks i writeHead : nat)
    : result (list A * nat) :=
  if (i <? numBlocks)%nat then
    match fuel with
    | O => Err OutOfFuel
    | S fuel' =>
        let first := (i * blockSize)%nat in
        let last := ((i + 1) * blockSize)%nat in
        let firstNext := ((i + 1) * blockSize)%nat in
        let lastNext := Min ((i + 2) * blockSize)%nat collectionSize in
        '(w, writeHead') ← merge_loop fuel0 readTarget writeTarget
                             first last firstNext lastNext writeHead;
        pair_loop fuel' fuel0 readTarget w collectionSize blockSize
          numBlocks (i + 2)%nat writeHead'
    end
  else Ok (writeTarget, writeHead).

(** The outer [while]; when it ends the contents of [readTarget] are
    copied into the caller's storage, so they are the result. *)
Fixpoint pass_loop (fuel fuel0 : nat) (readTarget writeTarget : list A)
    (collectionSize blockSize : nat) : result (list A) :=
  if (blockSize <? collectionSize)%nat then
    match fuel with
    | O => Err OutOfFuel
    | S fuel' =>
        let numBlocks := (collectionSize / blockSize)%nat in
        '(w, _) ← pair_loop fuel0 fuel0 readTarget writeTarget
                    collectionSize blockSize numBlocks 0%nat 0%nat;
        pass_loop fuel' fuel0 w readTarget collectionSize
          (blockSize + blockSize)%nat
    end
  else Ok readTarget.

Definition MergeSort (fuel : nat) (collection : list A) : result (list A) :=
  let collectionSize := length collection in
  let workingArea := replicate collectionSize elt_default in
  pass_loop fuel fuel collection workingArea collectionSize 1%nat.
End MergeSort.

(** ** QuickSort (Sorting.h, lines 203-272)

    Iterators are signed offsets from [begin]; [sortingRanges] is the
    [std::stack] of pending ranges, its top at the head of the list. *)

Section QuickSort.
Context {A : Type} {ord : Ordered A}.

(** The scanning [for] loop of one partition pass. *)
Fixpoint partition_loop (fuel : nat) (buf : list A)
    (pivot second firstLargest compareTarget : Z) : result (list A * Z) :=
  if negb (compareTarget =? second) then
    match fuel with
    | O => Err OutOfFuel
    | S fuel' =>
        c ← deref buf compareTarget;
        p ← deref buf pivot;
        if elt_le c p && negb (firstLargest =? pivot)
           && negb (compareTarget =? pivot) then
          buf' ← swap buf compareTarget firstLargest;
          partition_loop fuel' buf' pivot second (firstLargest + 1)
            (compareTarget + 1)
        else if elt_gt c p && (firstLargest =? pivot) then
          partition_loop fuel' buf pivot second compareTarget
            (compareTarget + 1)
        else
          partition_loop fuel' buf pivot second firstLargest
            (compareTarget + 1)
    end
  else Ok (buf, firstLargest).

(** One partition pass over [currentRange]: the scan, then the swap of the
    pivot into the boundary slot; the new pivot position is returned. *)
Definition partition (fuel : nat) (buf : list A) (currentRange : Z * Z)
    : result (list A * Z) :=
  let pivot := currentRange.2 - 1 in
  '(buf1, firstLargest) ← partition_loop fuel buf pivot currentRange.2
                            pivot currentRange.1;
  buf2 ← swap buf1 firstLargest pivot;
  Ok (buf2, firstLargest).

(** The two guarded pushes that end an iteration of the main loop. *)
Definition push_ranges (sortingRanges : list (Z * Z))
    (currentRange : Z * Z) (pivot : Z) : list (Z * Z) :=
  let pushed_right :=
    if 1 <? currentRange.2 - (pivot + 1)
    then (pivot + 1, currentRange.2) :: sortingRanges
    else sortingRanges in
  if 1 <? pivot - currentRange.1
  then (currentRange.1, pivot) :: pushed_right
  else pushed_right.

(** The main [while] loop over the work stack. *)
Fixpoint QuickSort_loop (fuel fuel0 : nat) (buf : list A)
    (sortingRanges : list (Z * Z)) : result (list A) :=
  match sortingRanges with
  | [] => Ok buf
  | currentRange :: rest =>
      match fuel with
      | O => Err OutOfFuel
      | S fuel' =>
          '(buf', pivot) ← partition fuel0 buf currentRange;
          QuickSort_loop fuel' fuel0 buf'
            (push_ranges rest currentRange pivot)
      end
  end.

Definition QuickSort (fuel : nat) (collection : list A) : result (list A) :=
  QuickSort_loop fuel fuel collection [(0, Z.of_nat (length collection))].
End QuickSort.

(** ** InsertionSort (Sorting.h, lines 281-348) *)

Section InsertionSort.
Context {A : Type} {ord : Ordered A}.

(** [destination->insert(std::begin( *destination ) + k, x)]. *)
Definition insert_at (buf : list A) (k : Z) (x : A) : result (list A) :=
  if decide (0 ≤ k ≤ Z.of_nat (length buf))
  then Ok (take (Z.to_nat k) buf ++ x :: drop (Z.to_nat k) buf)
  else Err OutOfBounds.

(** The binary search [while] loop for one element. *)
Fixpoint search_loop (fuel : nat) (element : A) (destination : list A)
    (start end_ : Z) : result (Z * Z) :=
  if 1 <? end_ - start then
    match fuel with
    | O => Err OutOfFuel
    | S fuel' =>
        let pivotIndex := start + (end_ - 1 - start) / 2 in
        pivot ← deref destination pivotIndex;
        let '(start', end') :=
          if elt_gt element pivot then (pivotIndex + 1, end_)
          else (start, pivotIndex + 1) in
        _ ← MIST_ASSERT (1 <=? end' - start');
        search_loop fuel' element destination start' end'
    end
  else Ok (start, end_).

(** The body of the range-based [for]: search, then insert. *)
Definition insert_element (fuel : nat) (destination : list A) (element : A)
    : result (list A) :=
  '(start, end_) ← search_loop fuel element destination 0
                     (Z.of_nat (length destination));
  let pivotIndex := start + (end_ - start) / 2 in
  pivot ← deref destination pivotIndex;
  if elt_gt element pivot
  then insert_at destination (pivotIndex + 1) element
  else insert_at destination pivotIndex element.

Fixpoint InsertionSort_loop (fuel : nat) (source destination : list A)
    : result (list A) :=
  match source with
  | [] => Ok destination
  | element :: source' =>
      destination' ← insert_element fuel destination element;
      InsertionSort_loop fuel source' destination'
  end.

Definition InsertionSort (fuel : nat) (source destination : list A)
    : result (list A) :=
  _ ← MIST_ASSERT (0 <? length destination)%nat;
  sorted ← IsSorted destination;
  _ ← MIST_ASSERT sorted;
  InsertionSort_loop fuel source destination.
End InsertionSort.

(** ** Integer element types

    [BucketSort] is the one function of the header that stores a number of
    its own, the [size_t] bucket index, into an element of the range: the
    index is converted to the element's integer type, and a value that the
    type cannot hold is reduced modulo two to the power of its width. *)

Inductive signedness : Type := Signed | Unsigned.

Record int_type : Type := IntType {
  int_sign : signedness;
  int_bits : Z
}.

Definition uint8_t : int_type := IntType Unsigned 8.
Definition int16_t : int_type := IntType Signed 16.
Definition uint16_t : int_type := IntType Unsigned 16.
Definition int32_t : int_type := IntType Signed 32.
Definition uint32_t : int_type := IntType Unsigned 32.
Definition int64_t : int_type := IntType Signed 64.
Definition uint64_t : int_type := IntType Unsigned 64.



(** The conversion of an integer to [T]: the value of [T] that is
    congruent to it modulo [2 ^ int_bits T] (the rule of the language for
    unsigned types and, since C++20, for signed ones; what the compilers
    did for signed types before). *)
Definition convert (T : int_type) (z : Z) : Z :=
  match int_sign T with
  | Signed =>
      (z + 2 ^ (int_bits T - 1)) mod 2 ^ int_bits T - 2 ^ (int_bits T - 1)
  | Unsigned => z mod 2 ^ int_bits T
  end.

(** ** BucketSort (Sorting.h, lines 354-390)

    The elements are values of the integer type [T]; [counts] is the
    [std::vector<CountType>] of [max - min] counters.  The comparisons
    and the subtractions of the counting pass are those of integers, the
    bucket index that the rebuilding pass stores is converted to [T]. *)

Section BucketSort.
Context (T : int_type).

(** The counting pass. *)
Fixpoint count_loop (range : list Z) (min max : Z) (counts : list nat)
    : result (list nat) :=
  match range with
  | [] => Ok counts
  | current :: rest =>
      _ ← MIST_ASSERT (current >=? min);
      _ ← MIST_ASSERT (current <=? max);
      c ← deref counts (current - min);
      counts' ← assign counts (current - min) (S c);
      count_loop rest min max counts'
  end.

(** [while (counts[currentIndex] == 0) ++currentIndex;] *)
Fixpoint skip_loop (fuel : nat) (counts : list nat) (currentIndex : nat)
    : result nat :=
  c ← rd counts currentIndex;
  if (c =? 0)%nat then
    match fuel with
    | O => Err OutOfFuel
    | S fuel' => skip_loop fuel' counts (S currentIndex)
    end
  else Ok currentIndex.

(** The rebuilding pass: one element is written per position of the
    range, in order; the assignment of line 380 converts [currentIndex]
    to the element type. *)
Fixpoint rebuild_loop (fuel : nat) (range : list Z) (counts : list nat)
    (currentIndex : nat) : result (list Z) :=
  match range with
  | [] => Ok []
  | _ :: rest =>
      currentIndex' ← skip_loop fuel counts currentIndex;
      c ← rd counts currentIndex';
      counts' ← wr counts currentIndex' (pred c);
      out ← rebuild_loop fuel rest counts' currentIndex';
      Ok (convert T (Z.of_nat currentIndex') :: out)
  end.

Definition BucketSort (fuel : nat) (range : list Z) (min max : Z)
    : result (list Z) :=
  _ ← MIST_ASSERT (max >? min);
  let counts := replicate (Z.to_nat (max - min)) 0%nat in
  counts' ← count_loop range min max counts;
  rebuild_loop fuel range counts' 0%nat.
End BucketSort.

(** ** Specification vocabulary *)

Section vocabulary.
Context {A : Type} {ord : Ordered A}.

(** [nlt a b]: [b] is not less than [a], the source's [!(b < a)]. *)
Definition nlt (a b : A) : Prop := elt_lt b a = false.

#[export] Instance nlt_dec (a b : A) : Decision (nlt a b) :=
  decide (elt_lt b a = false).

(** Every adjacent pair [(a, b)] of the range, in iteration order, has
    [!(b < a)]. *)
Definition ascending (l : list A) : Prop :=
  ∀ (i : nat) (a b : A), l !! i = Some a → l !! S i = Some b → nlt a b.

(** The elements equivalent to [x], in the order in which [l] has them. *)
Definition equiv_class (x : A) (l : list A) : list A :=
  filter (λ y, elt_equiv x y = true) l.

(** [l'] has every class of equivalent elements in the order of [l]. *)
Definition stable (l l' : list A) : Prop :=
  ∀ x : A, equiv_class x l' = equiv_class x l.
End vocabulary.

(** ** Invariants and list-level counterparts of the loops *)

Section invariants.
Context {A : Type} {ord : Ordered A}.

(** The element under the iterator at offset [i], when there is one. *)
Definition get (buf : list A) (i : Z) : option A :=
  if decide (0 ≤ i) then buf !! Z.to_nat i else None.

(** The window [start, end_) of the binary search: everything before it
    is below [element], nothing after it is. *)
Definition window (element : A) (destination : list A) (start end_ : Z)
    : Prop :=
  0 ≤ start < end_ ∧ end_ ≤ Z.of_nat (length destination) ∧
  Forall (λ x, elt_lt x element = true) (take (Z.to_nat start) destination) ∧
  Forall (λ x, elt_lt x element = false) (drop (Z.to_nat end_) destination).

(** The state of the scan when [compareTarget] is at [ct]: the slots from
    [first] to [fl] hold elements that are not above the pivot value, the
    slots from [fl] to [ct] hold elements above it, and [fl] is still at
    the pivot while no element above the pivot value has been met. *)
Definition scan_inv (orig : list A) (first second : Z) (pv : A)
    (buf : list A) (fl ct : Z) : Prop :=
  length buf = length orig ∧ buf ≡ₚ orig ∧
  (∀ i, i < first ∨ second ≤ i → get buf i = get orig i) ∧
  (∀ i x, first ≤ i < second → get buf i = Some x →
     ∃ i', first ≤ i' < second ∧ get orig i' = Some x) ∧
  get buf (second - 1) = Some pv ∧
  first ≤ ct ≤ second ∧
  ((fl = second - 1 ∧
    ∀ i x, first ≤ i < ct → i < second - 1 → get buf i = Some x →
      elt_lt pv x = false)
   ∨ ((first ≤ fl < ct ∧ fl < second - 1) ∧
      (∀ i x, first ≤ i < fl → get buf i = Some x → elt_lt pv x = false) ∧
      (∀ i x, fl ≤ i < ct → i < second - 1 → get buf i = Some x →
         elt_lt pv x = true))).

(** What one partition pass over [first, second) establishes. *)
Definition partitioned (buf : list A) (first second : Z)
    (buf' : list A) (p : Z) (pv : A) : Prop :=
  get buf (second - 1) = Some pv ∧ first ≤ p < second ∧
  length buf' = length buf ∧ buf' ≡ₚ buf ∧
  (∀ i, i < first ∨ second ≤ i → get buf' i = get buf i) ∧
  (∀ i x, first ≤ i < second → get buf' i = Some x →
     ∃ i', first ≤ i' < second ∧ get buf i' = Some x) ∧
  get buf' p = Some pv ∧
  (∀ i x, first ≤ i < p → get buf' i = Some x → elt_lt pv x = false) ∧
  (∀ i x, p < i < second → get buf' i = Some x → elt_lt pv x = true).

(** A pending range lies inside a buffer of [n] elements and is not empty. *)
Definition valid_range (n : nat) (r : Z * Z) : Prop :=
  0 ≤ r.1 < r.2 ∧ r.2 ≤ Z.of_nat n.

(** No two pending ranges overlap. *)
Fixpoint disjoint_ranges (stk : list (Z * Z)) : Prop :=
  match stk with
  | [] => True
  | r :: rest =>
      Forall (λ r', r.2 ≤ r'.1 ∨ r'.2 ≤ r.1) rest ∧ disjoint_ranges rest
  end.

(** The number of slots in pending ranges: the measure of the main loop. *)
Definition total_size (stk : list (Z * Z)) : Z :=
  foldr (λ r acc, (r.2 - r.1) + acc) 0 stk.

(** Two slots that are not yet in order lie in one pending range. *)
Definition pending (buf : list A) (stk : list (Z * Z)) : Prop :=
  ∀ i j x y, i < j → get buf i = Some x → get buf j = Some y →
    nlt x y ∨ ∃ r, r ∈ stk ∧ r.1 ≤ i ∧ j < r.2.

(** The elements of [buf] from index [a] up to index [b]. *)
Definition slice (buf : list A) (a b : nat) : list A :=
  take (b - a) (drop a buf).

(** What one pass writes from the current pair of blocks on, when [q] full
    blocks remain to be read: [R] and [W] are the parts of the two buffers
    from the current pair on.  Two full blocks are merged; a last full
    block is merged with what follows it; and when no full block is left
    the write buffer keeps what it had. *)
Fixpoint merge_pairs (blockSize q : nat) (R W : list A) : list A :=
  match q with
  | O => W
  | S O => list_merge nlt (take blockSize R) (drop blockSize R)
  | S (S q') =>
      list_merge nlt (take blockSize R) (take blockSize (drop blockSize R))
        ++ merge_pairs blockSize q' (drop (blockSize + blockSize) R)
             (drop (blockSize + blockSize) W)
  end.

(** Every full block of [blockSize] elements is sorted. *)
Definition blocks_sorted (blockSize : nat) (R : list A) : Prop :=
  ∀ j, ((j + 1) * blockSize ≤ length R)%nat →
    StronglySorted nlt (take blockSize (drop (j * blockSize) R)).

(** The two buffers at the head of a pass with blocks of [bs] elements:
    the full blocks of the read buffer are sorted, the read buffer is a
    stable arrangement of [orig] block by block, and so is the part of the
    write buffer after the last full block. *)
Definition pass_inv (orig : list A) (bs : nat) (R W : list A) : Prop :=
  length R = length orig ∧ length W = length orig ∧ blocks_sorted bs R ∧
  (∀ j, stable (take (j * bs) orig) (take (j * bs) R)) ∧
  stable (drop (length orig / bs * bs) orig)
    (drop (length orig / bs * bs) W).

End invariants.




(** ** Any (include/reflection/Any.h)

    The classes [AnyData<T>] are told apart by run-time type information:
    [type] stands for the value types [T] that the templates are
    instantiated with and [value t] for the values of type [t].  A pointer
    to the data of an [Any] is modelled by the data it points to. *)

Section Any.
Context {type : Type} `{EqDecision type} {value : type → Type}.

(** An object of class [AnyData<data_type>] with its member [m_Data]. *)
Record AnyData : Type := {
  data_type : type;
  m_Data : value data_type
}.

(** [Any]: the [std::unique_ptr] member, null or owning an [AnyData<T>]. *)
Definition Any : Type := option AnyData.

(** [dynamic_cast<Detail::AnyData<T>*>(any.m_Data.get())], followed by
    [Get()] where the result is not null: the data, or nothing for the
    null pointer. *)
Definition dynamic_cast (T : type) (any : Any) : option (value T) :=
  match any with
  | None => None
  | Some d =>
      match decide (data_type d = T) with
      | left e => Some (eq_rect (data_type d) value (m_Data d) T e)
      | right _ => None
      end
  end.

(** [Any::Any()]. *)
Definition Any_empty : Any := None.

(** [Any::Set<NewType>], and [Any::Any(ValueType)] which calls it. *)
Definition Any_Set (NewType : type) (data : value NewType) (any : Any)
    : Any :=
  Some {| data_type := NewType; m_Data := data |}.

(** [Any::Is<ValueType>]. *)
Definition Any_Is (ValueType : type) (any : Any) : bool :=
  match dynamic_cast ValueType any with
  | Some _ => true
  | None => false
  end.

(** [TryCast<CastType>(any, cast)]: the returned flag and what [*cast]
    holds afterwards. *)
Definition TryCast (CastType : type) (any : Any)
    (cast : option (value CastType)) : bool * option (value CastType) :=
  if negb (Any_Is CastType any) then (false, cast)
  else (true, dynamic_cast CastType any).

(** What a call in the reflection classes ends with. *)
Inductive outcome (T : Type) : Type :=
  | Done (v : T)
  | AssertFailed      (* a MIST_ASSERT did not hold *)
  | NullCall.         (* a member function was called through nullptr *)
Global Arguments Done {T} v.
Global Arguments AssertFailed {T}.
Global Arguments NullCall {T}.

(** [Cast<CastType>(any)]: [Get()] is called on the result of the
    [dynamic_cast] without a test. *)
Definition Cast (CastType : type) (any : Any) : outcome (value CastType) :=
  match dynamic_cast CastType any with
  | Some data => Done data
  | None => NullCall
  end.

(** ** MetaData (include/reflection/MetaData.h)

    [m_Data] is the [std::unordered_map<uint64_t, Any>]; a [HashID] is
    taken by the value that [GetValue()] returns. *)

Definition outcome_bind {T U : Type} (m : outcome T) (k : T → outcome U)
    : outcome U :=
  match m with
  | Done v => k v
  | AssertFailed => AssertFailed
  | NullCall => NullCall
  end.

Definition assert_that (b : bool) : outcome unit :=
  if b then Done tt else AssertFailed.

(** [m_Data.insert({key, any})]: the map and [insertionResult.second]. *)
Definition map_insert (key : N) (any : Any) (m : gmap N Any)
    : gmap N Any * bool :=
  match m !! key with
  | Some _ => (m, false)
  | None => (<[key := any]> m, true)
  end.

(** [m_Data[key]]: a missing key is inserted with [Any()]. *)
Definition map_index (key : N) (m : gmap N Any) : gmap N Any * Any :=
  match m !! key with
  | Some any => (m, any)
  | None => (<[key := Any_empty]> m, Any_empty)
  end.

(** [MetaData::Has]. *)
Definition MetaData_Has (id : N) (m : gmap N Any) : bool :=
  bool_decide (is_Some (m !! id)).

(** [MetaData::Add<Type>]. *)
Definition MetaData_Add (Type_ : type) (id : N) (data : value Type_)
    (m : gmap N Any) : outcome (gmap N Any * value Type_) :=
  outcome_bind (assert_that (negb (MetaData_Has id m))) (λ _,
  let '(m1, inserted) := map_insert id (Any_Set Type_ data Any_empty) m in
  outcome_bind (assert_that inserted) (λ _,
  let '(m2, any) := map_index id m1 in
  outcome_bind (assert_that (Any_Is Type_ any)) (λ _,
  let '(m3, any') := map_index id m2 in
  outcome_bind (Cast Type_ any') (λ p, Done (m3, p))))).

(** [MetaData::Get<Type>]. *)
Definition MetaData_Get (Type_ : type) (id : N) (m : gmap N Any)
    : outcome (gmap N Any * value Type_) :=
  outcome_bind (assert_that (MetaData_Has id m)) (λ _,
  let '(m1, any) := map_index id m in
  outcome_bind (assert_that (Any_Is Type_ any)) (λ _,
  let '(m2, any') := map_index id m1 in
  outcome_bind (Cast Type_ any') (λ p, Done (m2, p)))).
End Any.
Global Arguments AnyData : clear implicits.
Global Arguments Any : clear implicits.

(** Two value types to instantiate the templates with. *)
Inductive sample_type : Type := t_int | t_string.

#[export] Instance sample_type_eq_dec : EqDecision sample_type.
Proof. solve_decision. Defined.

Definition sample_value (t : sample_type) : Type :=
  match t with
  | t_int => Z
  | t_string => string
  end.

(** ** TestSorting (source/tests/main.cpp, lines 104-194)

    One iteration of each of the three test loops; the arguments are the
    values that [rand() % ELEMENT_COUNT] put into [m] and [arr]. *)

Definition ELEMENT_COUNT : nat := 100.
Definition SORTED_ELEMENT_COUNT : nat := 10.

Definition TestSorting_MergeSort (fuel : nat) (m arr : list Z)
    : result unit :=
  m' ← MergeSort fuel m;
  sorted ← IsSorted m';
  _ ← MIST_ASSERT sorted;
  arr' ← MergeSort fuel arr;
  sorted' ← IsSorted arr';
  MIST_ASSERT sorted'.

Definition TestSorting_QuickSort (fuel : nat) (m arr : list Z)
    : result unit :=
  m' ← QuickSort fuel m;
  sorted ← IsSorted m';
  _ ← MIST_ASSERT sorted;
  arr' ← QuickSort fuel arr;
  sorted' ← IsSorted arr';
  MIST_ASSERT sorted'.

Definition TestSorting_InsertionSort (fuel : nat) (m : list Z)
    : result unit :=
  let sortedVector := Z.of_nat <$> seq 0 SORTED_ELEMENT_COUNT in
  sortedVector' ← InsertionSort fuel m sortedVector;
  sorted ← IsSorted sortedVector';
  MIST_ASSERT sorted.

(** ** Lengths on which no pass of MergeSort leaves a stale partial block

    A pass with blocks of [2^k] elements reads [n / 2^k] full blocks.  When
    that number is odd, the last full block is merged with the partial
    block behind it; when the next pass then finds an even number of full
    blocks, it does not write behind them and the pass after it reads there
    what this pass was given.  That is the sorted result only if this pass
    had no partial block. *)
Definition safe_length (n : nat) : Prop :=
  ∀ k : nat, (2 * 2 ^ k < n)%nat →
    Nat.odd (n / 2 ^ k) = true → Nat.even (n / (2 * 2 ^ k)) = true →
    (n mod 2 ^ k = 0)%nat.

(** The two buffers at the head of a pass, for sortedness: the full blocks
    of the read buffer and what follows them are sorted, and so is what
    the write buffer has behind the full blocks when the pass will leave it
    there. *)
Definition sort_inv {A : Type} {ord : Ordered A} (n bs : nat)
    (R W : list A) : Prop :=
  length R = n ∧ length W = n ∧ blocks_sorted bs R ∧
  StronglySorted nlt (drop (n / bs * bs) R) ∧
  ((bs < n)%nat → Nat.even (n / bs) = true →
     StronglySorted nlt (drop (n / bs * bs) W)).

(** * Properties *)

Lemma Z_StrictWeak : StrictWeak Z.
Proof.
  split; simpl.
  - apply Z.ltb_irrefl.
  - intros a b c Hab%Z.ltb_lt Hbc%Z.ltb_lt. apply Z.ltb_lt. lia.
  - intros a b c Hab%Z.ltb_ge Hbc%Z.ltb_ge. apply Z.ltb_ge. lia.
  - intros a b. apply Z.leb_antisym.
  - intros a b. apply Z.gtb_ltb.
Qed.
#[export] Existing Instance Z_StrictWeak.

Lemma keyed_StrictWeak : StrictWeak (Z * string).
Proof.
  split; simpl.
  - intros a. apply Z.ltb_irrefl.
  - intros a b c Hab%Z.ltb_lt Hbc%Z.ltb_lt. apply Z.ltb_lt. lia.
  - intros a b c Hab%Z.ltb_ge Hbc%Z.ltb_ge. apply Z.ltb_ge. lia.
  - intros a b. apply Z.leb_antisym.
  - intros a b. apply Z.gtb_ltb.
Qed.
#[export] Existing Instance keyed_StrictWeak.

(** ** IsSorted *)

Section IsSorted_facts.
Context {A : Type} {ord : Ordered A}.

Lemma ascending_nil : ascending (@nil A).
Proof. intros i a b Ha. done. Qed.

Lemma ascending_singleton (x : A) : ascending [x].
Proof. intros i a b _ Hb. destruct i; done. Qed.

Lemma ascending_cons (x y : A) (l : list A) :
  ascending (x :: y :: l) ↔ nlt x y ∧ ascending (y :: l).
Proof.
  split.
  - intros Hasc. split.
    + by apply (Hasc 0%nat).
    + intros i a b Ha Hb. by apply (Hasc (S i)).
  - intros [Hxy Hasc] i a b Ha Hb. destruct i as [|i].
    + simpl in *. by simplify_eq.
    + by apply (Hasc i).
Qed.

Lemma ascending_Sorted (l : list A) : ascending l ↔ Sorted nlt l.
Proof.
  induction l as [|x [|y l] IH].
  - split; [constructor | intros; apply ascending_nil].
  - split; [repeat constructor | intros; apply ascending_singleton].
  - rewrite ascending_cons, IH. split.
    + intros [??]. constructor; [done | by constructor].
    + intros Hs. inversion Hs as [|?? Hs' Hhd]; subst.
      inversion Hhd; subst. done.
Qed.

Lemma IsSorted_loop_ascending (begin : A) (rest : list A) :
  IsSorted_loop begin rest = true ↔ ascending (begin :: rest).
Proof.
  revert begin. induction rest as [|next rest IH]; intros begin; simpl.
  - split; [intros; apply ascending_singleton | done].
  - rewrite ascending_cons. unfold nlt at 1.
    destruct (elt_lt next begin) eqn:Hlt.
    + split; [done | intros [? _]; done].
    + rewrite IH. tauto.
Qed.

Lemma IsSorted_Ok_true (l : list A) :
  IsSorted l = Ok true ↔ l ≠ [] ∧ Sorted nlt l.
Proof.
  rewrite <- ascending_Sorted. destruct l as [|x l]; simpl.
  - split; [done | intros [? _]; done].
  - split.
    + intros [= Heq]. split; [done | by apply IsSorted_loop_ascending].
    + intros [_ Hasc]. apply IsSorted_loop_ascending in Hasc.
      cbn. by rewrite Hasc.
Qed.
End IsSorted_facts.

(** C9. [IsSorted] stops on its assertion exactly for the empty range; on a
    non-empty range it returns a boolean that is [true] exactly when every
    adjacent pair [(a, b)] has [!(b < a)]; a one-element range, and
    [1,2,3], give [true], and [3,1,2] gives [false].  The function reads
    its range and returns the boolean alone: the range is not changed. *)
Theorem IsSorted_contract :
  (∀ (A : Type) (ord : Ordered A) (range : list A),
      (IsSorted range = Err AssertionFailure ↔ range = []) ∧
      (range = [] ∨
       ∃ b : bool, IsSorted range = Ok b ∧ (b = true ↔ ascending range))) ∧
  (∀ (A : Type) (ord : Ordered A) (x : A), IsSorted [x] = Ok true) ∧
  IsSorted [1; 2; 3] = Ok true ∧
  IsSorted [3; 1; 2] = Ok false.
Proof.
  split; [|done].
  intros A O [|begin rest]; simpl.
  - split; [done | by left].
  - split; [done |]. right. eexists. split; [done |].
    apply IsSorted_loop_ascending.
Qed.

(** ** The ordering *)

Section order_facts.
Context {A : Type} {ord : Ordered A} {SW : StrictWeak A}.

Lemma nlt_refl (a : A) : nlt a a.
Proof. apply elt_lt_irrefl. Qed.

Lemma nlt_trans (a b c : A) : nlt a b → nlt b c → nlt a c.
Proof. unfold nlt. intros Hab Hbc. by apply (elt_nlt_trans c b a). Qed.

#[export] Instance nlt_Transitive : Transitive (nlt (A:=A)).
Proof. intros a b c. apply nlt_trans. Qed.

Lemma elt_lt_asym (a b : A) : elt_lt a b = true → elt_lt b a = false.
Proof.
  intros Hab. destruct (elt_lt b a) eqn:Hba; [|done].
  by rewrite <- (elt_lt_irrefl a), <- (elt_lt_trans a b a).
Qed.

Lemma nlt_total (a b : A) : nlt a b ∨ nlt b a.
Proof.
  unfold nlt. destruct (elt_lt b a) eqn:Hba; [|by left].
  right. by apply elt_lt_asym.
Qed.

#[export] Instance nlt_Total : Total (nlt (A:=A)).
Proof. intros a b. apply nlt_total. Qed.

Lemma nlt_lt_trans (a b c : A) :
  nlt a b → elt_lt b c = true → elt_lt a c = true.
Proof.
  unfold nlt. intros Hab Hbc. destruct (elt_lt a c) eqn:Hac; [done|].
  by rewrite <- Hbc, (elt_nlt_trans b a c).
Qed.

Lemma lt_nlt_trans (a b c : A) :
  elt_lt a b = true → nlt b c → elt_lt a c = true.
Proof.
  unfold nlt. intros Hab Hbc. destruct (elt_lt a c) eqn:Hac; [done|].
  by rewrite <- Hab, (elt_nlt_trans a c b).
Qed.

Lemma lt_nlt (a b : A) : elt_lt a b = true → nlt a b.
Proof. apply elt_lt_asym. Qed.

(** The elements up to position [p] are not above [d[p]], and those from
    [p] on are not below it. *)
Lemma StronglySorted_lookup (d : list A) (p : nat) (y : A) :
  StronglySorted nlt d → d !! p = Some y →
  Forall (λ x, nlt x y) (take (S p) d) ∧ Forall (nlt y) (drop p d).
Proof.
  intros Hs. revert p. induction Hs as [|x d Hs IH Hall]; intros p Hp; [done|].
  destruct p as [|p]; simpl in *.
  - simplify_eq. rewrite take_0. split.
    + repeat constructor. apply nlt_refl.
    + constructor; [apply nlt_refl | done].
  - destruct (IH p Hp) as [IH1 IH2]. split; [|done].
    constructor; [|done]. rewrite Forall_forall in Hall. apply Hall.
    by eapply list_elem_of_lookup_2.
Qed.

Lemma StronglySorted_insert (d : list A) (k : nat) (e : A) :
  StronglySorted nlt d →
  Forall (λ x, elt_lt x e = true) (take k d) →
  Forall (λ x, elt_lt x e = false) (drop k d) →
  StronglySorted nlt (take k d ++ e :: drop k d).
Proof.
  intros Hs Hlo Hhi. rewrite <- (take_drop k d) in Hs.
  apply StronglySorted_app in Hs as (Hcross & Hs1 & Hs2).
  apply StronglySorted_app_2; [| done |].
  - intros x1 x2 Hx1 [->|Hx2]%elem_of_cons; [|by apply Hcross].
    rewrite Forall_forall in Hlo. apply lt_nlt. by apply Hlo.
  - constructor; [done|]. done.
Qed.
End order_facts.

(** ** InsertionSort *)

Section InsertionSort_facts.
Context {A : Type} {ord : Ordered A} {SW : StrictWeak A}.

Section search.
Variables (element : A) (destination : list A).
Hypothesis sorted_destination : StronglySorted nlt destination.

Lemma deref_lookup (buf : list A) (i : Z) :
  0 ≤ i < Z.of_nat (length buf) →
  ∃ y, buf !! Z.to_nat i = Some y ∧ deref buf i = Ok y.
Proof.
  intros Hi. unfold deref, rd. rewrite decide_True by lia.
  destruct (lookup_lt_is_Some_2 buf (Z.to_nat i)) as [y Hy]; [lia|].
  exists y. by rewrite Hy.
Qed.

Lemma search_loop_window (fuel : nat) (start end_ : Z) :
  window element destination start end_ → end_ - start ≤ Z.of_nat fuel →
  ∃ s, search_loop fuel element destination start end_ = Ok (s, s + 1)
       ∧ window element destination s (s + 1).
Proof.
  revert start end_. induction fuel as [|fuel IH]; intros start end_ Hw Hfuel.
  { destruct Hw as (? & _). lia. }
  pose proof Hw as (Hse & Hlen & Hlo & Hhi).
  simpl. destruct (1 <? end_ - start) eqn:Hcont.
  2:{ apply Z.ltb_ge in Hcont. assert (end_ = start + 1) as -> by lia.
      by exists start. }
  apply Z.ltb_lt in Hcont.
  set (pivotIndex := start + (end_ - 1 - start) / 2).
  assert (start ≤ pivotIndex < end_ - 1) as Hp.
  { unfold pivotIndex. split.
    - pose proof (Z.div_pos (end_ - 1 - start) 2). lia.
    - pose proof (Z.div_lt (end_ - 1 - start) 2). lia. }
  destruct (deref_lookup destination pivotIndex) as (pivot & Hpivot & ->);
    [lia|]. simpl.
  destruct (StronglySorted_lookup _ _ _ sorted_destination Hpivot)
    as [Hbelow Habove].
  rewrite elt_gt_lt. destruct (elt_lt pivot element) eqn:Hgt; simpl.
  - assert ((1 <=? end_ - (pivotIndex + 1)) = true) as -> by lia. simpl.
    apply IH; [|lia]. split_and!; [lia..| |done].
    replace (Z.to_nat (pivotIndex + 1)) with (S (Z.to_nat pivotIndex)) by lia.
    eapply Forall_impl; [exact Hbelow|]. intros x Hx. simpl in Hx.
    by eapply nlt_lt_trans.
  - assert ((1 <=? pivotIndex + 1 - start) = true) as -> by lia. simpl.
    apply IH; [|lia]. split_and!; [lia..|done|].
    replace (Z.to_nat (pivotIndex + 1))
      with (Z.to_nat pivotIndex + 1)%nat by lia.
    rewrite <- drop_drop. apply Forall_drop.
    eapply Forall_impl; [exact Habove|]. intros x Hx.
    by apply (elt_nlt_trans x pivot element).
Qed.
End search.

Lemma insert_element_sorted (fuel : nat) (destination : list A) (element : A) :
  destination ≠ [] → StronglySorted nlt destination →
  (length destination ≤ fuel)%nat →
  ∃ k : nat, (k ≤ length destination)%nat ∧
    insert_element fuel destination element
      = Ok (take k destination ++ element :: drop k destination) ∧
    StronglySorted nlt (take k destination ++ element :: drop k destination).
Proof.
  intros Hne Hs Hfuel. unfold insert_element.
  assert (0 < length destination)%nat as Hlen.
  { destruct destination; [done | simpl; lia]. }
  destruct (search_loop_window element destination Hs fuel 0
              (Z.of_nat (length destination))) as (s & -> & Hw).
  { split_and!; [lia..| |].
    - by rewrite take_0.
    - rewrite Nat2Z.id, drop_all. constructor. }
  { lia. }
  destruct Hw as (Hs0 & Hs1 & Hlo & Hhi). simpl.
  replace (s + (s + 1 - s) / 2) with s
    by (replace (s + 1 - s) with 1 by lia; change (1 / 2) with 0; lia).
  destruct (deref_lookup destination s) as (pivot & Hpivot & ->); [lia|].
  simpl. rewrite elt_gt_lt. unfold insert_at.
  replace (Z.to_nat (s + 1)) with (S (Z.to_nat s)) in * by lia.
  destruct (elt_lt pivot element) eqn:Hgt.
  - rewrite decide_True by lia. exists (S (Z.to_nat s)).
    split_and!; [lia | done |]. apply StronglySorted_insert; [done | | done].
    rewrite (take_S_r _ _ _ Hpivot). apply Forall_app. split; [done|].
    by repeat constructor.
  - rewrite decide_True by lia. exists (Z.to_nat s).
    split_and!; [lia | done |]. apply StronglySorted_insert; [done..|].
    rewrite (drop_S _ _ _ Hpivot). by constructor.
Qed.

Lemma InsertionSort_loop_sorted (fuel : nat) (source destination : list A) :
  destination ≠ [] → StronglySorted nlt destination →
  (length destination + length source ≤ fuel)%nat →
  ∃ out, InsertionSort_loop fuel source destination = Ok out ∧
    out ≡ₚ destination ++ source ∧ out ≠ [] ∧ StronglySorted nlt out ∧
    length out = (length destination + length source)%nat.
Proof.
  revert destination.
  induction source as [|element source IH]; intros destination Hne Hs Hfuel.
  { exists destination. rewrite app_nil_r. simpl. split_and!; [done..|lia]. }
  simpl in *.
  destruct (insert_element_sorted fuel destination element)
    as (k & Hk & -> & Hs'); [done | done | lia |].
  simpl.
  destruct (IH (take k destination ++ element :: drop k destination))
    as (out & -> & Hperm & Hne' & Hsorted & Hlen).
  { by destruct (take k destination). }
  { done. }
  { rewrite length_app, length_take. simpl. rewrite length_drop. lia. }
  exists out. split_and!; [done | | done | done |].
  - rewrite Hperm, <- Permutation_middle, take_drop.
    by rewrite (Permutation_middle destination source element).
  - rewrite Hlen, length_app, length_take. simpl. rewrite length_drop. lia.
Qed.

Lemma IsSorted_StronglySorted (l : list A) :
  IsSorted l = Ok true ↔ l ≠ [] ∧ StronglySorted nlt l.
Proof.
  rewrite IsSorted_Ok_true. split; intros [? Hs]; (split; [done|]).
  - apply Sorted.Sorted_StronglySorted; [|done].
    intros a b c. apply nlt_trans.
  - by apply Sorted.StronglySorted_Sorted.
Qed.
End InsertionSort_facts.

(** C8. With a non-empty, ascending destination, [InsertionSort] returns
    with the destination holding its own elements and those of the source,
    ascending; the destination has grown by one element per source element,
    and it is ascending after each single insertion (after the first [k]
    elements of the source, for every [k]).  An empty or unsorted
    destination stops on an assertion, before anything is inserted. *)
Theorem InsertionSort_contract {A : Type} {ord : Ordered A}
    {SW : StrictWeak A} (fuel : nat) (source destination : list A) :
  (length destination + length source ≤ fuel)%nat →
  (destination = [] ∨ IsSorted destination = Ok false →
     InsertionSort fuel source destination = Err AssertionFailure) ∧
  (destination ≠ [] ∧ IsSorted destination = Ok true →
     (∃ out, InsertionSort fuel source destination = Ok out ∧
        out ≡ₚ destination ++ source ∧ IsSorted out = Ok true ∧
        length out = (length destination + length source)%nat) ∧
     (∀ k : nat, (k ≤ length source)%nat →
        ∃ d_k, InsertionSort_loop fuel (take k source) destination = Ok d_k ∧
          d_k ≡ₚ destination ++ take k source ∧ IsSorted d_k = Ok true ∧
          length d_k = (length destination + k)%nat)).
Proof.
  intros Hfuel. split.
  - intros [-> | Hunsorted]; [done|]. unfold InsertionSort.
    destruct destination; [done|]. by rewrite Hunsorted.
  - intros [Hne Hsorted]. pose proof Hsorted as Hcheck.
    apply IsSorted_StronglySorted in Hsorted as [_ Hs]. split.
    + unfold InsertionSort. rewrite Hcheck.
      destruct destination as [|x d]; [done|]. cbn -[InsertionSort_loop].
      destruct (InsertionSort_loop_sorted fuel source (x :: d))
        as (out & -> & Hperm & Hne' & Hout & Hlen); [done..|].
      exists out. split_and!; [done..| |done].
      by apply IsSorted_StronglySorted.
    + intros k Hk.
      destruct (InsertionSort_loop_sorted fuel (take k source) destination)
        as (out & -> & Hperm & Hne' & Hout & Hlen); [done..| |].
      { rewrite length_take. lia. }
      exists out. split_and!; [done..| |].
      * by apply IsSorted_StronglySorted.
      * rewrite Hlen, length_take. lia.
Qed.

Lemma InsertionSort_contract_witness :
  ∃ out, InsertionSort 8 [5; 3; 9; 3] [0; 4; 8] = Ok out ∧
    IsSorted out = Ok true ∧ length out = 7%nat.
Proof.
  destruct (InsertionSort_contract 8 [5; 3; 9; 3] [0; 4; 8]) as [_ Hok].
  { simpl. lia. }
  destruct Hok as [(out & Hrun & _ & Hsorted & Hlen) _].
  { split; [done | reflexivity]. }
  exists out. split_and!; [exact Hrun | exact Hsorted | exact Hlen].
Defined.

(** ** Buffers read and written through iterators *)

Section buffer_facts.
Context {A : Type}.

Lemma get_Some_range (buf : list A) (i : Z) (x : A) :
  get buf i = Some x → 0 ≤ i < Z.of_nat (length buf).
Proof.
  unfold get. case_decide; [|done]. intros Hx%lookup_lt_Some. lia.
Qed.

Lemma get_in_range (buf : list A) (i : Z) :
  0 ≤ i < Z.of_nat (length buf) → ∃ x, get buf i = Some x.
Proof.
  intros Hi. unfold get. rewrite decide_True by lia.
  apply lookup_lt_is_Some_2. lia.
Qed.

Lemma get_ext (buf buf' : list A) :
  length buf = length buf' → (∀ i, get buf i = get buf' i) → buf = buf'.
Proof.
  intros Hlen Hget. apply list_eq. intros i.
  specialize (Hget (Z.of_nat i)). unfold get in Hget.
  by rewrite !decide_True, Nat2Z.id in Hget by lia.
Qed.

Lemma deref_get (buf : list A) (i : Z) (x : A) :
  get buf i = Some x → deref buf i = Ok x.
Proof.
  unfold get, deref, rd. case_decide; [|done]. by intros ->.
Qed.

Lemma deref_Ok (buf : list A) (i : Z) (x : A) :
  deref buf i = Ok x → get buf i = Some x.
Proof.
  unfold get, deref, rd. case_decide; [|done].
  destruct (buf !! Z.to_nat i); [|done]. by intros [= ->].
Qed.


Lemma assign_get (buf : list A) (i : Z) (x : A) :
  0 ≤ i < Z.of_nat (length buf) →
  ∃ buf', assign buf i x = Ok buf' ∧ length buf' = length buf ∧
    buf' = <[Z.to_nat i := x]> buf ∧
    ∀ k, get buf' k = if decide (k = i) then Some x else get buf k.
Proof.
  intros Hi. unfold assign, wr. rewrite !decide_True by lia.
  eexists. split_and!; [done | by rewrite length_insert | done |].
  intros k. unfold get. case_decide as Hk0.
  - case_decide as Hki.
    + subst. apply list_lookup_insert_eq. lia.
    + apply list_lookup_insert_ne. lia.
  - rewrite decide_False by lia. done.
Qed.

Lemma insert_head_Permutation (l : list A) (j : nat) (a b : A) :
  l !! j = Some b → b :: <[j:=a]> l ≡ₚ a :: l.
Proof.
  revert j. induction l as [|x l IH]; intros [|j] Hj; simplify_eq/=.
  - apply perm_swap.
  - rewrite perm_swap, (IH j Hj). apply perm_swap.
Qed.

Lemma insert_insert_Permutation (l : list A) (i j : nat) (a b : A) :
  l !! i = Some a → l !! j = Some b → <[j:=a]> (<[i:=b]> l) ≡ₚ l.
Proof.
  revert i j. induction l as [|x l IH]; intros [|i] [|j] Hi Hj;
    simplify_eq/=; [done | | |].
  - by apply insert_head_Permutation.
  - by apply insert_head_Permutation.
  - by rewrite (IH i j).
Qed.

Lemma swap_get (buf : list A) (i j : Z) (a b : A) :
  get buf i = Some a → get buf j = Some b →
  ∃ buf', swap buf i j = Ok buf' ∧ length buf' = length buf ∧
    buf' ≡ₚ buf ∧
    ∀ k, get buf' k =
         if decide (k = j) then Some a
         else if decide (k = i) then Some b else get buf k.
Proof.
  intros Ha Hb. unfold swap.
  rewrite (deref_get _ _ _ Ha), (deref_get _ _ _ Hb). simpl.
  pose proof (get_Some_range _ _ _ Ha) as Hi.
  pose proof (get_Some_range _ _ _ Hb) as Hj.
  destruct (assign_get buf i b Hi) as (buf1 & -> & Hlen1 & Hbuf1 & Hget1).
  simpl.
  destruct (assign_get buf1 j a) as (buf2 & -> & Hlen2 & Hbuf2 & Hget2);
    [lia|].
  exists buf2. split_and!; [done | lia | |].
  - subst buf2 buf1. unfold get in Ha, Hb.
    rewrite decide_True in Ha by lia. rewrite decide_True in Hb by lia.
    by apply insert_insert_Permutation.
  - intros k. rewrite Hget2. case_decide; [done|]. apply Hget1.
Qed.

Lemma swap_self (buf : list A) (i : Z) (a : A) :
  get buf i = Some a → swap buf i i = Ok buf.
Proof.
  intros Ha. destruct (swap_get buf i i a a Ha Ha) as (buf' & -> & Hlen & _ & Hget).
  f_equal. apply get_ext; [done|]. intros k. rewrite Hget.
  repeat case_decide; by subst.
Qed.
End buffer_facts.

(** ** QuickSort: one partition pass *)

Section partition_facts.
Context {A : Type} {ord : Ordered A} {SW : StrictWeak A}.

Section scan.
Variables (orig : list A) (first second : Z) (pv : A).
Hypothesis range_ok : 0 ≤ first < second ∧ second ≤ Z.of_nat (length orig).
Hypothesis pivot_value : get orig (second - 1) = Some pv.

Lemma scan_inv_start : scan_inv orig first second pv orig (second - 1) first.
Proof using All.
  split_and!; [done | done | done | | done | lia | lia |].
  - intros i x Hi Hx. by exists i.
  - left. split; [done|]. intros i x Hi. lia.
Qed.

Lemma partition_loop_inv (fuel : nat) (buf : list A) (fl ct : Z) :
  scan_inv orig first second pv buf fl ct → second - ct ≤ Z.of_nat fuel →
  ∃ buf' fl', partition_loop fuel buf (second - 1) second fl ct
                = Ok (buf', fl')
              ∧ scan_inv orig first second pv buf' fl' second.
Proof using All.
  revert buf fl ct.
  induction fuel as [|fuel IH]; intros buf fl ct Hinv Hfuel.
  { pose proof Hinv as (_ & _ & _ & _ & _ & Hct & _).
    assert (ct = second) as -> by lia. simpl. rewrite Z.eqb_refl. simpl.
    by exists buf, fl. }
  simpl. destruct (Z.eqb_spec ct second) as [->|Hne]; simpl.
  { by exists buf, fl. }
  destruct Hinv as (Hlen & Hperm & Hframe & Horigin & Hpivot & Hct & Hparts).
  destruct (get_in_range buf ct) as [c Hc]; [lia|].
  rewrite (deref_get _ _ _ Hc), (deref_get _ _ _ Hpivot). simpl.
  rewrite elt_le_lt, elt_gt_lt.
  destruct (elt_lt pv c) eqn:Hcmp, (Z.eqb_spec fl (second - 1)) as [Hfl|Hfl],
    (Z.eqb_spec ct (second - 1)) as [Hctp|Hctp]; simpl;
    try (assert (c = pv) as -> by (subst ct; congruence);
         rewrite elt_lt_irrefl in Hcmp; done).
  - (* the first element above the pivot value *)
    apply IH; [|lia]. split_and!; [done | done | done | done | done | lia | lia |].
    right. destruct Hparts as [[_ Hle]|[? _]]; [|lia].
    split_and!; [lia | lia | lia | |].
    + intros i x Hi Hx. by apply (Hle i); [lia..|].
    + intros i x Hi _ Hx. assert (i = ct) as -> by lia. congruence.
  - (* a further element above the pivot value *)
    apply IH; [|lia]. split_and!; [done | done | done | done | done | lia | lia |].
    right. destruct Hparts as [[? _]|(? & Hle & Hgt)]; [lia|].
    split_and!; [lia | lia | lia | done |].
    intros i x Hi Hip Hx. destruct (decide (i = ct)) as [->|].
    + congruence.
    + apply (Hgt i); [lia | done | done].
  - (* the pivot slot itself, nothing above the pivot value was met *)
    apply IH; [|lia]. split_and!; [done | done | done | done | done | lia | lia |].
    left. destruct Hparts as [[_ Hle]|[? _]]; [|lia].
    split; [done|]. intros i x Hi Hip Hx. apply (Hle i); [lia | done | done].
  - (* not above the pivot value, and nothing above it was met *)
    apply IH; [|lia]. split_and!; [done | done | done | done | done | lia | lia |].
    left. destruct Hparts as [[_ Hle]|[? _]]; [|lia].
    split; [done|]. intros i x Hi Hip Hx. destruct (decide (i = ct)) as [->|].
    + congruence.
    + apply (Hle i); [lia | done | done].
  - (* the pivot slot itself *)
    apply IH; [|lia]. split_and!; [done | done | done | done | done | lia | lia |].
    right. destruct Hparts as [[? _]|(? & Hle & Hgt)]; [lia|].
    split_and!; [lia | lia | lia | done |].
    intros i x Hi Hip Hx. apply (Hgt i); [lia | done | done].
  - (* not above the pivot value: exchanged with the boundary slot *)
    destruct Hparts as [[? _]|(Hfl' & Hle & Hgt)]; [lia|].
    destruct (get_in_range buf fl) as [y Hy]; [lia|].
    destruct (swap_get buf ct fl c y Hc Hy)
      as (buf' & -> & Hlen' & Hperm' & Hget').
    simpl. apply IH; [|lia]. split_and!.
    + congruence.
    + by rewrite Hperm'.
    + intros i Hi. rewrite Hget'. rewrite !decide_False by lia. by apply Hframe.
    + intros i x Hi. rewrite Hget'. repeat case_decide; intros Hx.
      * simplify_eq. by apply (Horigin ct); [lia|].
      * simplify_eq. by apply (Horigin fl); [lia|].
      * by apply (Horigin i).
    + rewrite Hget'. by rewrite !decide_False by lia.
    + lia.
    + lia.
    + right. split_and!; [lia | lia | lia | |].
      * intros i x Hi. rewrite Hget'. repeat case_decide; intros Hx.
        -- by simplify_eq.
        -- lia.
        -- apply (Hle i); [lia | done].
      * intros i x Hi Hip. rewrite Hget'. repeat case_decide; intros Hx.
        -- lia.
        -- simplify_eq. apply (Hgt fl); [lia | lia | done].
        -- apply (Hgt i); [lia | done | done].
Qed.
End scan.

Lemma partition_spec (fuel : nat) (buf : list A) (first second : Z) :
  0 ≤ first < second ∧ second ≤ Z.of_nat (length buf) →
  second - first ≤ Z.of_nat fuel →
  ∃ buf' p pv, partition fuel buf (first, second) = Ok (buf', p) ∧
    partitioned buf first second buf' p pv.
Proof.
  intros Hrange Hfuel. unfold partition. simpl.
  destruct (get_in_range buf (second - 1)) as [pv Hpv]; [lia|].
  destruct (partition_loop_inv buf first second pv Hrange Hpv fuel buf
              (second - 1) first) as (buf1 & fl & -> & Hinv).
  { by apply scan_inv_start. }
  { lia. }
  simpl.
  destruct Hinv as (Hlen & Hperm & Hframe & Horigin & Hpivot & _ & Hparts).
  destruct Hparts as [[-> Hle]|(Hfl & Hle & Hgt)].
  - rewrite (swap_self _ _ _ Hpivot). simpl. exists buf1, (second - 1), pv.
    split; [done|]. split_and!; [done | lia | lia | done..| |].
    + intros i x Hi Hx. apply (Hle i); [lia | lia | done].
    + intros i x Hi. lia.
  - destruct (get_in_range buf1 fl) as [y Hy]; [lia|].
    destruct (swap_get buf1 fl (second - 1) y pv Hy Hpivot)
      as (buf2 & -> & Hlen' & Hperm' & Hget').
    simpl. exists buf2, fl, pv.
    split; [done|]. split_and!; [done | lia | lia | congruence | | | | | |].
    + by rewrite Hperm'.
    + intros i Hi. rewrite Hget', !decide_False by lia. by apply Hframe.
    + intros i x Hi. rewrite Hget'. repeat case_decide; intros Hx.
      * simplify_eq. by apply (Horigin fl); [lia|].
      * simplify_eq. by apply (Horigin (second - 1)); [lia|].
      * by apply (Horigin i).
    + rewrite Hget'. rewrite decide_False by lia. by rewrite decide_True.
    + intros i x Hi. rewrite Hget', !decide_False by lia. by apply Hle.
    + intros i x Hi. rewrite Hget'. repeat case_decide; intros Hx.
      * simplify_eq. apply (Hgt fl); [lia | lia | done].
      * lia.
      * apply (Hgt i); [lia | lia | done].
Qed.
End partition_facts.

(** ** QuickSort: the work stack *)

Section stack_facts.
Context {A : Type} {ord : Ordered A} {SW : StrictWeak A}.

Lemma elem_of_push_ranges (rest : list (Z * Z)) (f s p : Z) (r : Z * Z) :
  r ∈ push_ranges rest (f, s) p ↔
    (r = (f, p) ∧ 1 < p - f) ∨ (r = (p + 1, s) ∧ 1 < s - (p + 1)) ∨ r ∈ rest.
Proof.
  unfold push_ranges. simpl.
  destruct (Z.ltb_spec 1 (s - (p + 1))), (Z.ltb_spec 1 (p - f));
    rewrite ?elem_of_cons; intuition (try lia; auto).
Qed.

Lemma total_size_push (rest : list (Z * Z)) (f s p : Z) :
  f ≤ p < s →
  total_size (push_ranges rest (f, s) p) ≤ total_size rest + (s - f) - 1.
Proof.
  intros Hp. unfold push_ranges. simpl.
  destruct (Z.ltb_spec 1 (s - (p + 1))), (Z.ltb_spec 1 (p - f)); simpl; lia.
Qed.

Lemma total_size_nonneg (n : nat) (stk : list (Z * Z)) :
  Forall (valid_range n) stk → 0 ≤ total_size stk.
Proof.
  induction 1 as [|r stk [Hr _] _ IH]; simpl; lia.
Qed.

Lemma valid_push (n : nat) (rest : list (Z * Z)) (f s p : Z) :
  valid_range n (f, s) → Forall (valid_range n) rest → f ≤ p < s →
  Forall (valid_range n) (push_ranges rest (f, s) p).
Proof.
  intros [Hfs Hs] Hrest Hp. simpl in *. apply Forall_forall. intros r.
  rewrite elem_of_push_ranges. rewrite Forall_forall in Hrest.
  intros [[-> ?]|[[-> ?]|?]]; [| |by apply Hrest];
    unfold valid_range; simpl; lia.
Qed.

Lemma disjoint_push (rest : list (Z * Z)) (f s p : Z) :
  disjoint_ranges ((f, s) :: rest) → f ≤ p < s →
  disjoint_ranges (push_ranges rest (f, s) p).
Proof.
  intros [Hfs Hrest] Hp. simpl in Hfs. unfold push_ranges. simpl.
  assert (Forall (λ r', p ≤ r'.1 ∨ r'.2 ≤ f) rest) as Hleft.
  { eapply Forall_impl; [exact Hfs|]. simpl. lia. }
  assert (Forall (λ r', s ≤ r'.1 ∨ r'.2 ≤ p + 1) rest) as Hright.
  { eapply Forall_impl; [exact Hfs|]. simpl. lia. }
  destruct (Z.ltb_spec 1 (s - (p + 1))), (Z.ltb_spec 1 (p - f)); simpl;
    repeat split; try done.
  constructor; [simpl; lia | done].
Qed.

Lemma pending_step (buf buf' : list A) (rest : list (Z * Z))
    (f s p : Z) (pv : A) :
  disjoint_ranges ((f, s) :: rest) →
  pending buf ((f, s) :: rest) →
  partitioned buf f s buf' p pv →
  pending buf' (push_ranges rest (f, s) p).
Proof.
  intros [Hdisj _] Hpend Hpart. simpl in Hdisj.
  destruct Hpart as (Hpv & Hp & Hlen & Hperm & Hframe & Horigin & Hpiv
                     & Hle & Hgt).
  rewrite Forall_forall in Hdisj.
  assert (∀ i' j' x y, i' < j' → get buf i' = Some x → get buf j' = Some y →
            ¬ (f ≤ i' ∧ j' < s) → (f ≤ i' < s ∨ f ≤ j' < s) → nlt x y)
    as Hcross.
  { intros i' j' x y Hij Hx Hy Hnot Hin.
    destruct (Hpend i' j' x y Hij Hx Hy) as [?|(r & Hr & Hri & Hrj)]; [done|].
    apply elem_of_cons in Hr as [->|Hr]; [simpl in *; lia|].
    apply Hdisj in Hr. lia. }
  intros i j x y Hij Hx Hy.
  destruct (decide (f ≤ i < s)) as [Hi|Hi], (decide (f ≤ j < s)) as [Hj|Hj].
  - (* both slots in the range that was partitioned *)
    destruct (decide (i < p)) as [Hip|Hip], (decide (j ≤ p)) as [Hjp|Hjp].
    + destruct (decide (j = p)) as [->|].
      * left. rewrite Hpiv in Hy. simplify_eq. apply (Hle i); [lia | done].
      * right. exists (f, p). rewrite elem_of_push_ranges. simpl.
        split_and!; [left; split; [done | lia] | lia | lia].
    + left. pose proof (Hle i x ltac:(lia) Hx) as Hxle.
      pose proof (Hgt j y ltac:(lia) Hy) as Hygt.
      unfold nlt. destruct (elt_lt y x) eqn:Hyx; [|done].
      by rewrite <- Hxle, (elt_lt_trans pv y x).
    + lia.
    + destruct (decide (i = p)) as [->|].
      * left. rewrite Hpiv in Hx. simplify_eq. apply lt_nlt.
        apply (Hgt j); [lia | done].
      * right. exists (p + 1, s). rewrite elem_of_push_ranges. simpl.
        split_and!; [right; left; split; [done | lia] | lia | lia].
  - (* only the left slot in the range *)
    left. destruct (Horigin i x Hi Hx) as (i' & Hi' & Hx').
    rewrite Hframe in Hy by lia.
    apply (Hcross i' j); [lia | done | done | lia | lia].
  - (* only the right slot in the range *)
    left. destruct (Horigin j y Hj Hy) as (j' & Hj' & Hy').
    rewrite Hframe in Hx by lia.
    apply (Hcross i j'); [lia | done | done | lia | lia].
  - (* both slots outside *)
    rewrite Hframe in Hx by lia. rewrite Hframe in Hy by lia.
    destruct (Hpend i j x y Hij Hx Hy) as [?|(r & Hr & Hri & Hrj)];
      [by left|].
    apply elem_of_cons in Hr as [->|Hr]; [simpl in *; lia|].
    right. exists r. rewrite elem_of_push_ranges. auto.
Qed.

Lemma QuickSort_loop_spec (fuel fuel0 : nat) (buf : list A)
    (stk : list (Z * Z)) :
  (length buf ≤ fuel0)%nat →
  Forall (valid_range (length buf)) stk → disjoint_ranges stk →
  total_size stk ≤ Z.of_nat fuel → pending buf stk →
  ∃ out, QuickSort_loop fuel fuel0 buf stk = Ok out ∧
    out ≡ₚ buf ∧ pending out [].
Proof.
  intros Hfuel0. revert buf stk Hfuel0.
  induction fuel as [|fuel IH]; intros buf stk Hfuel0 Hvalid Hdisj Hsize Hpend.
  - destruct stk as [|[f s] rest].
    + by exists buf.
    + apply Forall_cons in Hvalid as [[Hfs _] Hrest].
      apply total_size_nonneg in Hrest. simpl in *. lia.
  - destruct stk as [|[f s] rest]; [by exists buf|].
    pose proof Hvalid as [[Hfs Hs] Hrest]%Forall_cons. simpl in Hfs, Hs.
    destruct (partition_spec fuel0 buf f s) as (buf' & p & pv & Hrun & Hpart);
      [lia | lia |].
    simpl. rewrite Hrun. simpl.
    pose proof Hpart as (Hpv & Hp & Hlen & Hperm & Hframe & _).
    destruct (IH buf' (push_ranges rest (f, s) p))
      as (out & -> & Hperm' & Hsorted).
    + lia.
    + rewrite Hlen. apply valid_push; [done | done | lia].
    + by apply disjoint_push.
    + pose proof (total_size_push rest f s p Hp). simpl in Hsize. lia.
    + by eapply pending_step.
    + exists out. split_and!; [done | by rewrite Hperm' | done].
Qed.

(** Slots outside every pending range keep their element to the end. *)
Lemma QuickSort_loop_frame (fuel fuel0 : nat) (buf out : list A)
    (stk : list (Z * Z)) :
  (length buf ≤ fuel0)%nat → Forall (valid_range (length buf)) stk →
  QuickSort_loop fuel fuel0 buf stk = Ok out →
  ∀ i, (∀ r, r ∈ stk → ¬ (r.1 ≤ i < r.2)) → get out i = get buf i.
Proof.
  intros Hfuel0. revert buf stk Hfuel0.
  induction fuel as [|fuel IH]; intros buf stk Hfuel0 Hvalid Hrun i Hi.
  { destruct stk; simpl in Hrun; by simplify_eq. }
  destruct stk as [|[f s] rest]; simpl in Hrun; [by simplify_eq|].
  pose proof Hvalid as [[Hfs Hs] Hrest]%Forall_cons. simpl in Hfs, Hs.
  destruct (partition_spec fuel0 buf f s) as (buf' & p & pv & Hpass & Hpart);
    [lia | lia |].
  rewrite Hpass in Hrun. simpl in Hrun.
  destruct Hpart as (_ & Hp & Hlen & _ & Hframe & _).
  assert (¬ (f ≤ i < s)) as Hout by (apply (Hi (f, s)); constructor).
  rewrite <- Hframe by lia. eapply IH; [| |exact Hrun|].
  - lia.
  - rewrite Hlen. apply valid_push; [done | done | lia].
  - intros r. rewrite elem_of_push_ranges.
    intros [[-> ?]|[[-> ?]|Hr]]; simpl; [lia | lia |].
    apply Hi. by constructor.
Qed.

Lemma get_of_nat (buf : list A) (i : nat) : get buf (Z.of_nat i) = buf !! i.
Proof. unfold get. rewrite decide_True by lia. by rewrite Nat2Z.id. Qed.

Lemma pending_nil_ascending (buf : list A) : pending buf [] → ascending buf.
Proof.
  intros Hpend i a b Ha Hb. rewrite <- get_of_nat in Ha, Hb.
  destruct (Hpend (Z.of_nat i) (Z.of_nat (S i)) a b) as [?|(r & Hr & _)];
    [lia | done | done | done |].
  by apply elem_of_nil in Hr.
Qed.

Lemma QuickSort_empty (fuel : nat) :
  QuickSort (S fuel) (@nil A) = Err OutOfBounds.
Proof. reflexivity. Qed.

Lemma QuickSort_sorts (fuel : nat) (collection : list A) :
  collection ≠ [] → (length collection ≤ fuel)%nat →
  ∃ out, QuickSort fuel collection = Ok out ∧ out ≡ₚ collection ∧
    IsSorted out = Ok true.
Proof.
  intros Hne Hfuel. unfold QuickSort.
  assert (0 < length collection)%nat as Hlen.
  { destruct collection; [done | simpl; lia]. }
  destruct (QuickSort_loop_spec fuel fuel collection
              [(0, Z.of_nat (length collection))])
    as (out & -> & Hperm & Hpend).
  - done.
  - repeat constructor; simpl; lia.
  - by repeat constructor.
  - simpl. lia.
  - intros i j x y Hij Hx%get_Some_range Hy%get_Some_range. right.
    eexists. split; [constructor|]. simpl. lia.
  - exists out. split_and!; [done..|].
    apply IsSorted_Ok_true. split.
    + intros ->. apply Permutation_nil_l in Hperm. done.
    + apply ascending_Sorted. by apply pending_nil_ascending.
Qed.
End stack_facts.

(** ** QuickSort: the contract *)

(** C6. At the end of a partition pass over a non-empty range
    [first, second) the pivot value (the last element of the range on
    entry) is at the returned position [p]; every element of the range
    left of [p] compares [<=] to it and every element right of [p] compares
    [>] to it, whatever the number of elements equal to the pivot; and [p]
    is final: whatever the main loop does afterwards with the two pushed
    ranges and the rest of the stack, slot [p] keeps the pivot value. *)
Theorem partition_pass {A : Type} {ord : Ordered A} {SW : StrictWeak A}
    (fuel : nat) (buf : list A) (first second : Z) :
  0 ≤ first < second ∧ second ≤ Z.of_nat (length buf) →
  (length buf ≤ fuel)%nat →
  ∃ buf' p pv, partition fuel buf (first, second) = Ok (buf', p) ∧
    get buf (second - 1) = Some pv ∧ first ≤ p < second ∧
    get buf' p = Some pv ∧ buf' ≡ₚ buf ∧
    (∀ i x, first ≤ i < p → get buf' i = Some x → elt_le x pv = true) ∧
    (∀ i x, p < i < second → get buf' i = Some x → elt_gt x pv = true) ∧
    (∀ rest fuel' out,
       Forall (valid_range (length buf)) rest →
       (∀ r, r ∈ rest → ¬ (r.1 ≤ p < r.2)) →
       QuickSort_loop fuel' fuel buf' (push_ranges rest (first, second) p)
         = Ok out →
       get out p = Some pv).
Proof.
  intros Hrange Hfuel.
  destruct (partition_spec fuel buf first second)
    as (buf' & p & pv & Hrun & Hpart); [done | lia |].
  destruct Hpart as (Hpv & Hp & Hlen & Hperm & Hframe & Horigin & Hpiv
                     & Hle & Hgt).
  exists buf', p, pv. split_and!; [done | done | lia | lia | done..| | |].
  - intros i x Hi Hx. rewrite elt_le_lt. by rewrite (Hle i x).
  - intros i x Hi Hx. rewrite elt_gt_lt. by apply (Hgt i).
  - intros rest fuel' out Hrest Hnot Hloop. rewrite <- Hpiv.
    eapply QuickSort_loop_frame; [| |exact Hloop|].
    + lia.
    + rewrite Hlen. apply valid_push; [done | done | lia].
    + intros r. rewrite elem_of_push_ranges.
      intros [[-> ?]|[[-> ?]|Hr]]; simpl; [lia | lia |]. by apply Hnot.
Qed.

Lemma partition_pass_witness :
  ∃ buf' p pv,
    partition 11 [5; 5; 5; 1; 5; 5; 9; 5; 5; 0; 5] (0, 11) = Ok (buf', p) ∧
    get buf' p = Some pv ∧
    (∀ i x, 0 ≤ i < p → get buf' i = Some x → elt_le x pv = true) ∧
    (∀ i x, p < i < 11 → get buf' i = Some x → elt_gt x pv = true).
Proof.
  destruct (partition_pass 11 [5; 5; 5; 1; 5; 5; 9; 5; 5; 0; 5] 0 11)
    as (buf' & p & pv & Hrun & _ & _ & Hpiv & _ & Hle & Hgt & _).
  - simpl. lia.
  - simpl. lia.
  - exists buf', p, pv. split_and!; [exact Hrun | exact Hpiv | exact Hle | exact Hgt].
Defined.

(** C10. [QuickSort] returns on every finite input.  A range that a pass
    pushes is [(pivot + 1, second)] or [(first, pivot)] for the position
    [pivot] that the pass returned, so it lies strictly right or strictly
    left of that position inside the range just processed and is strictly
    shorter; it is pushed only with more than one element; the main loop
    ends when the stack is empty; and with more fuel than elements the
    model never runs out of fuel. *)
Theorem QuickSort_terminates {A : Type} {ord : Ordered A}
    {SW : StrictWeak A} :
  (∀ (fuel : nat) (buf buf' : list A) (first second p : Z)
     (rest : list (Z * Z)) (r : Z * Z),
      0 ≤ first < second ∧ second ≤ Z.of_nat (length buf) →
      (length buf ≤ fuel)%nat →
      partition fuel buf (first, second) = Ok (buf', p) →
      r ∈ push_ranges rest (first, second) p →
      r ∈ rest ∨
      ((r = (p + 1, second) ∨ r = (first, p)) ∧
       first ≤ r.1 ∧ r.2 ≤ second ∧ ¬ (r.1 ≤ p < r.2) ∧
       1 < r.2 - r.1 ∧ r.2 - r.1 < second - first)) ∧
  (∀ (fuel fuel0 : nat) (buf : list A),
      QuickSort_loop fuel fuel0 buf [] = Ok buf) ∧
  (∀ (fuel : nat) (collection : list A),
      (length collection < fuel)%nat →
      QuickSort fuel collection ≠ Err OutOfFuel ∧
      (collection = [] ∨ ∃ out, QuickSort fuel collection = Ok out)).
Proof.
  split_and!.
  - intros fuel buf buf' first second p rest r Hrange Hfuel Hrun.
    destruct (partition_spec fuel buf first second)
      as (buf1 & p1 & pv & Hrun1 & Hpart); [done | lia |].
    rewrite Hrun in Hrun1. simplify_eq.
    destruct Hpart as (_ & Hp & _).
    rewrite elem_of_push_ranges.
    intros [[-> ?]|[[-> ?]|?]]; simpl; [right | right | by left].
    + split_and!; [by right | lia..].
    + split_and!; [by left | lia..].
  - intros fuel fuel0 buf. by destruct fuel.
  - intros fuel collection Hfuel.
    destruct collection as [|x l].
    + destruct fuel as [|fuel]; [simpl in Hfuel; lia|].
      rewrite QuickSort_empty. split; [done | by left].
    + destruct (QuickSort_sorts fuel (x :: l)) as (out & Hrun & _);
        [done | lia |].
      rewrite Hrun. split; [done | right; by exists out].
Qed.

Lemma QuickSort_terminates_witness :
  QuickSort 13 [9; 8; 7; 6; 5; 4; 3; 2; 1; 0; 11; 5] ≠ Err OutOfFuel.
Proof.
  destruct (@QuickSort_terminates Z _ _) as (_ & _ & Hreturns).
  destruct (Hreturns 13%nat [9; 8; 7; 6; 5; 4; 3; 2; 1; 0; 11; 5])
    as [Hfuel _].
  - simpl. lia.
  - exact Hfuel.
Defined.

(** C2. On a non-empty sequence [QuickSort] returns a permutation of the
    sequence that [IsSorted] accepts.  On the empty sequence the first
    pass takes [end - 1], which is [begin - 1], as the pivot and swaps the
    element under it with itself: the call leaves the buffer, and no
    sorted sequence is returned. *)
Theorem QuickSort_contract {A : Type} {ord : Ordered A} {SW : StrictWeak A}
    (fuel : nat) (collection : list A) :
  (length collection < fuel)%nat →
  (collection = [] ∧ QuickSort fuel collection = Err OutOfBounds) ∨
  (collection ≠ [] ∧
   ∃ out, QuickSort fuel collection = Ok out ∧ out ≡ₚ collection ∧
     IsSorted out = Ok true).
Proof.
  intros Hfuel. destruct collection as [|x l].
  - left. destruct fuel as [|fuel]; [simpl in Hfuel; lia|].
    by rewrite QuickSort_empty.
  - right. split; [done|]. apply QuickSort_sorts; [done | lia].
Qed.

Lemma QuickSort_contract_witness :
  QuickSort 1 ([] : list Z) = Err OutOfBounds.
Proof.
  destruct (QuickSort_contract 1 ([] : list Z)) as [[_ Hrun]|[Hne _]].
  - simpl. lia.
  - exact Hrun.
  - done.
Defined.

(** ** Sequences of length 0 and 1 *)

(** C4. [MergeSort] returns a sequence of length 0 or 1 as it is: the
    pass loop is not entered, nothing is asserted and no element is
    touched.  [QuickSort] returns a one-element sequence as it is.  On the
    empty sequence [QuickSort] leaves the buffer: its first pass swaps the
    element under [end - 1] with itself. *)
Theorem short_sequences {A : Type} {ord : Ordered A} (fuel : nat) (x : A) :
  MergeSort fuel (@nil A) = Ok [] ∧
  MergeSort fuel [x] = Ok [x] ∧
  QuickSort (S fuel) [x] = Ok [x] ∧
  QuickSort (S fuel) (@nil A) = Err OutOfBounds.
Proof.
  split_and!.
  - by destruct fuel.
  - by destruct fuel.
  - unfold QuickSort, QuickSort_loop, partition. simpl.
    destruct (elt_le x x), (elt_gt x x); simpl; by destruct fuel.
  - reflexivity.
Qed.

(** ** MergeSort on a length that leaves a partial block *)

(** C1. With eleven elements the pass with blocks of four merges the two
    full blocks and stops: [numBlocks] is 2, so the three elements after
    them are never written, and the write buffer keeps what the pass with
    blocks of one had left there.  The last pass merges that stale tail as
    if it were sorted, and the sequence that is returned is not. *)
Theorem MergeSort_partial_block :
  MergeSort 11 [0; 0; 0; 0; 0; 0; 0; 0; 5; 6; 1]
    = Ok [0; 0; 0; 0; 0; 0; 0; 0; 5; 6; 1] ∧
  IsSorted [0; 0; 0; 0; 0; 0; 0; 0; 5; 6; 1] = Ok false.
Proof. split; reflexivity. Qed.

(** ** BucketSort: the counters *)

(** C3. An element equal to [max] passes both assertions and is counted
    in [counts[max - min]], one slot past the [max - min] counters that
    were allocated. *)
Theorem BucketSort_max_element (T : int_type) :
  (5 >? 2) = true ∧ Forall (λ e, 2 ≤ e ≤ 5) [5] ∧
  count_loop [5] 2 5 (replicate (Z.to_nat (5 - 2)) 0%nat) = Err OutOfBounds ∧
  BucketSort T 8 [5] 2 5 = Err OutOfBounds ∧
  BucketSort T 8 [4; 2; 2; 5; 3] 2 5 = Err OutOfBounds.
Proof. split_and!; [done | repeat constructor; lia | done..]. Qed.

(** ** BucketSort: counting and rebuilding *)

Section BucketSort_facts.




















End BucketSort_facts.




(** ** MergeSort: one pair of blocks *)

Section merge_facts.
Context {A : Type} {ord : Ordered A}.

Lemma slice_nil (buf : list A) (a : nat) : slice buf a a = [].
Proof. unfold slice. by rewrite Nat.sub_diag, take_0. Qed.

Lemma slice_cons (buf : list A) (a b : nat) :
  (a < b ≤ length buf)%nat →
  ∃ x, buf !! a = Some x ∧ slice buf a b = x :: slice buf (S a) b.
Proof.
  intros Hab. destruct (lookup_lt_is_Some_2 buf a) as [x Hx]; [lia|].
  exists x. split; [done|]. unfold slice.
  rewrite (drop_S _ _ _ Hx). by replace (b - a)%nat with (S (b - S a)) by lia.
Qed.

Lemma slice_take_drop (buf : list A) (a k : nat) :
  slice buf a (a + k) = take k (drop a buf).
Proof. unfold slice. by replace (a + k - a)%nat with k by lia. Qed.

(** Writing [x] at the head of the part of the write buffer that is not
    yet written. *)
Lemma emit (W M : list A) (wh k n : nat) (x : A) :
  (wh < length W)%nat → n = S (wh + k) →
  take (S wh) (<[wh:=x]> W) ++ M ++ drop (S wh + k) (<[wh:=x]> W)
    = take wh W ++ (x :: M) ++ drop n W.
Proof.
  intros Hwh ->.
  rewrite (take_S_r (<[wh:=x]> W) wh x) by (by apply list_lookup_insert_eq).
  rewrite take_insert_ge by lia. rewrite drop_insert_lt by lia.
  by rewrite <- app_assoc.
Qed.

Lemma merge_loop_spec (fuel : nat) (R W : list A)
    (first last firstNext lastNext writeHead : nat) :
  (first ≤ last ≤ length R)%nat → (firstNext ≤ lastNext ≤ length R)%nat →
  (writeHead + ((last - first) + (lastNext - firstNext)) ≤ length W)%nat →
  ((last - first) + (lastNext - firstNext) ≤ fuel)%nat →
  merge_loop fuel R W first last firstNext lastNext writeHead
    = Ok (take writeHead W
            ++ list_merge nlt (slice R first last)
                 (slice R firstNext lastNext)
            ++ drop (writeHead + ((last - first) + (lastNext - firstNext))) W,
          (writeHead + ((last - first) + (lastNext - firstNext)))%nat).
Proof.
  revert W first firstNext writeHead.
  induction fuel as [|fuel IH]; intros W first firstNext writeHead Hl Hr Hw Hf.
  { assert (first = last) as -> by lia.
    assert (firstNext = lastNext) as -> by lia.
    simpl. rewrite !Nat.eqb_refl. simpl. rewrite !slice_nil, !Nat.sub_diag.
    simpl. by rewrite Nat.add_0_r, take_drop. }
  simpl.
  destruct (Nat.eqb_spec firstNext lastNext) as [->|HneR],
    (Nat.eqb_spec first last) as [->|HneL]; simpl.
  - rewrite !slice_nil, !Nat.sub_diag. simpl.
    by rewrite Nat.add_0_r, take_drop.
  - destruct (slice_cons R first last) as (x & Hx & ->); [lia|].
    unfold rd, wr. rewrite Hx. simpl. rewrite decide_True by lia. simpl.
    rewrite IH; [|lia | lia | rewrite length_insert; lia | lia].
    rewrite slice_nil, !list_merge_nil_r, Nat.sub_diag.
    f_equal. f_equal; [|lia].
    apply emit; lia.
  - destruct (slice_cons R firstNext lastNext) as (x & Hx & ->); [lia|].
    unfold rd, wr. rewrite Hx. simpl. rewrite decide_True by lia. simpl.
    rewrite IH; [|lia | lia | rewrite length_insert; lia | lia].
    rewrite slice_nil, !list_merge_nil_l, Nat.sub_diag.
    f_equal. f_equal; [|lia].
    apply emit; lia.
  - destruct (slice_cons R firstNext lastNext) as (r & Hr' & ->); [lia|].
    destruct (slice_cons R first last) as (l & Hl' & ->); [lia|].
    rewrite list_merge_cons.
    unfold rd, wr. rewrite Hr', Hl'. simpl.
    destruct (decide (nlt l r)) as [Hcmp|Hcmp]; unfold nlt in Hcmp.
    + rewrite Hcmp. rewrite decide_True by lia. simpl.
      rewrite IH; [|lia | lia | rewrite length_insert; lia | lia].
      destruct (slice_cons R firstNext lastNext) as (r' & Hr'' & ->); [lia|].
      simplify_eq. f_equal. f_equal; [|lia].
      apply emit; lia.
    + apply not_false_is_true in Hcmp.
      rewrite Hcmp. rewrite decide_True by lia. simpl.
      rewrite IH; [|lia | lia | rewrite length_insert; lia | lia].
      destruct (slice_cons R first last) as (l' & Hl'' & ->); [lia|].
      simplify_eq. f_equal. f_equal; [|lia].
      apply emit; lia.
Qed.
End merge_facts.

(** ** MergeSort: one pass *)

Section pass_facts.
Context {A : Type} {ord : Ordered A}.

Lemma length_list_merge (l1 l2 : list A) :
  length (list_merge nlt l1 l2) = (length l1 + length l2)%nat.
Proof. by rewrite merge_Permutation, length_app. Qed.

Lemma pair_loop_done (fuel fuel0 : nat) (R W : list A)
    (n bs numBlocks i wh : nat) :
  (numBlocks ≤ i)%nat →
  pair_loop fuel fuel0 R W n bs numBlocks i wh = Ok (W, wh).
Proof.
  intros Hi. destruct fuel; simpl;
    by destruct (Nat.ltb_spec i numBlocks); [lia|].
Qed.

Lemma pair_loop_spec (fuel fuel0 : nat) (R W : list A) (bs i : nat) :
  (0 < bs)%nat → length W = length R →
  (i ≤ length R / bs)%nat → (length R / bs - i ≤ 2 * fuel)%nat →
  (length R ≤ fuel0)%nat →
  ∃ wh, pair_loop fuel fuel0 R W (length R) bs (length R / bs) i (i * bs)
        = Ok (take (i * bs) W
                ++ merge_pairs bs (length R / bs - i) (drop (i * bs) R)
                     (drop (i * bs) W), wh).
Proof.
  intros Hbs. set (n := length R). set (q := (n / bs)%nat).
  assert (q * bs ≤ n ∧ n < (q + 1) * bs)%nat as Hq.
  { unfold q. pose proof (Nat.div_mod_eq n bs).
    pose proof (Nat.mod_upper_bound n bs). nia. }
  revert W i. induction fuel as [|fuel IH]; intros W i HW Hi Hfuel Hfuel0.
  { replace (q - i)%nat with 0%nat by lia.
    rewrite pair_loop_done by lia. simpl. rewrite take_drop. by eexists. }
  destruct (q - i)%nat as [|[|q']] eqn:Hrem.
  - rewrite pair_loop_done by lia. simpl. rewrite take_drop. by eexists.
  - (* the last full block and what follows it *)
    assert (i < q)%nat as Hlt by lia.
    simpl. destruct (Nat.ltb_spec i q) as [_|?]; [|lia].
    assert (Min ((i + 2) * bs) n = n) as ->.
    { unfold Min. destruct (Nat.ltb_spec ((i + 2) * bs) n); [nia | done]. }
    rewrite merge_loop_spec; [| fold n; nia | fold n; nia | nia | nia].
    simpl. rewrite pair_loop_done by lia. eexists. do 2 f_equal.
    rewrite (drop_ge W) by nia. rewrite app_nil_r.
    replace ((i + 1) * bs)%nat with (i * bs + bs)%nat by lia.
    rewrite slice_take_drop. unfold slice.
    rewrite drop_drop.
    by rewrite (take_ge (drop (i * bs + bs) R)) by (rewrite length_drop; lia).
  - (* two full blocks *)
    assert (i + 2 ≤ q)%nat as Hlt by lia.
    simpl. destruct (Nat.ltb_spec i q) as [_|?]; [|lia].
    assert (Min ((i + 2) * bs) n = ((i + 2) * bs)%nat) as ->.
    { unfold Min. destruct (Nat.ltb_spec ((i + 2) * bs) n); [done | nia]. }
    rewrite merge_loop_spec; [| fold n; nia | fold n; nia | nia | nia].
    simpl.
    replace (i * bs + ((i + 1) * bs - i * bs + ((i + 2) * bs - (i + 1) * bs)))%nat
      with ((i + 2) * bs)%nat by nia.
    set (B0 := slice R (i * bs) ((i + 1) * bs)).
    set (B1 := slice R ((i + 1) * bs) ((i + 2) * bs)).
    assert (length B0 = bs ∧ length B1 = bs) as [HB0 HB1].
    { unfold B0, B1, slice. rewrite !length_take, !length_drop. fold n. nia. }
    destruct (IH (take (i * bs) W ++ list_merge nlt B0 B1
                    ++ drop ((i + 2) * bs) W) (i + 2)%nat)
      as (wh & Hrun).
    { rewrite !length_app, length_list_merge, length_take, length_drop. nia. }
    { lia. }
    { lia. }
    { done. }
    rewrite Hrun. exists wh. do 2 f_equal.
    assert (length (take (i * bs) W) = (i * bs)%nat) as Hpre.
    { rewrite length_take. nia. }
    rewrite app_assoc.
    rewrite take_app_length'
      by (rewrite length_app, length_list_merge; nia).
    rewrite drop_app_length'
      by (rewrite length_app, length_list_merge; nia).
    rewrite <- app_assoc. f_equal.
    replace (q - (i + 2))%nat with q' by lia.
    rewrite !drop_drop.
    replace (i * bs + (bs + bs))%nat with ((i + 2) * bs)%nat by lia.
    f_equal. unfold B0, B1.
    replace ((i + 2) * bs)%nat with ((i + 1) * bs + bs)%nat by lia.
    rewrite slice_take_drop.
    replace ((i + 1) * bs)%nat with (i * bs + bs)%nat by lia.
    by rewrite slice_take_drop.
Qed.
End pass_facts.

(** ** MergeSort: stability *)

Section stability.
Context {A : Type} {ord : Ordered A} {SW : StrictWeak A}.

Lemma nat_pair_ind (P : nat → Prop) :
  P 0%nat → P 1%nat → (∀ n, P n → P (S (S n))) → ∀ n, P n.
Proof.
  intros H0 H1 Hstep n. assert (P n ∧ P (S n)) as [? _]; [|done].
  induction n as [|n [IHn IHSn]]; auto.
Qed.

Lemma equiv_class_app (x : A) (l1 l2 : list A) :
  equiv_class x (l1 ++ l2) = equiv_class x l1 ++ equiv_class x l2.
Proof. apply filter_app. Qed.

Lemma equiv_class_cons (x y : A) (l : list A) :
  equiv_class x (y :: l)
    = if elt_equiv x y then y :: equiv_class x l else equiv_class x l.
Proof.
  unfold equiv_class. rewrite filter_cons.
  destruct (elt_equiv x y); by case_decide.
Qed.

Lemma equiv_class_none (x : A) (l : list A) :
  Forall (λ y, elt_equiv x y = false) l → equiv_class x l = [].
Proof.
  induction 1 as [|y l Hy _ IH]; [done|].
  by rewrite equiv_class_cons, Hy.
Qed.

Lemma stable_refl (l : list A) : stable l l.
Proof. by intros x. Qed.

Lemma stable_trans (l1 l2 l3 : list A) :
  stable l1 l2 → stable l2 l3 → stable l1 l3.
Proof. intros H12 H23 x. by rewrite H23. Qed.

Lemma stable_app (l1 l2 l1' l2' : list A) :
  stable l1 l1' → stable l2 l2' → stable (l1 ++ l2) (l1' ++ l2').
Proof. intros H1 H2 x. by rewrite !equiv_class_app, H1, H2. Qed.

(** Two stable arrangements that are stable up to [m] are stable from [m]
    on. *)
Lemma stable_drop (l l' : list A) (m : nat) :
  stable l l' → stable (take m l) (take m l') → stable (drop m l) (drop m l').
Proof.
  intros Hall Htake x. specialize (Hall x). specialize (Htake x).
  rewrite <- (take_drop m l), <- (take_drop m l') in Hall.
  rewrite !equiv_class_app, Htake in Hall. by apply app_inv_head in Hall.
Qed.

(** The merge step keeps every class in order as soon as the left block
    is sorted: an element of the right block overtakes only elements that
    are strictly greater. *)
Lemma list_merge_stable (L T : list A) :
  StronglySorted nlt L → stable (L ++ T) (list_merge nlt L T).
Proof.
  intros Hs x. rewrite equiv_class_app. revert T.
  induction Hs as [|a L Hs IHL Ha]; intros T.
  { by rewrite list_merge_nil_l. }
  induction T as [|b T IHT].
  { by rewrite list_merge_nil_r, app_nil_r. }
  rewrite list_merge_cons. case_decide as Hab.
  - rewrite !(equiv_class_cons _ a), IHL. by destruct (elt_equiv x a).
  - rewrite equiv_class_cons, IHT, (equiv_class_cons _ b).
    destruct (elt_equiv x b) eqn:Hxb; [|done].
    rewrite (equiv_class_none x (a :: L)); [done|].
    unfold nlt in Hab. apply not_false_is_true in Hab.
    unfold elt_equiv in Hxb.
    apply andb_true_iff in Hxb as [_ Hbx%negb_true_iff].
    assert (∀ y, nlt a y → elt_equiv x y = false) as Hout.
    { intros y Hay. unfold elt_equiv.
      assert (elt_lt b y = true) as Hby by (by eapply lt_nlt_trans).
      destruct (elt_lt x y) eqn:Hxy; [done|].
      pose proof (elt_nlt_trans b x y Hbx Hxy). congruence. }
    constructor; [apply Hout, nlt_refl|].
    eapply Forall_impl; [exact Ha|]. apply Hout.
Qed.

Lemma blocks_sorted_drop (bs k : nat) (R : list A) :
  blocks_sorted bs R → blocks_sorted bs (drop (k * bs) R).
Proof.
  intros Hs j Hj. rewrite length_drop in Hj. rewrite drop_drop.
  replace (k * bs + j * bs)%nat with ((k + j) * bs)%nat by lia.
  apply Hs. nia.
Qed.

Lemma list_merge_sorted (l1 l2 : list A) :
  StronglySorted nlt l1 → StronglySorted nlt l2 →
  StronglySorted nlt (list_merge nlt l1 l2).
Proof.
  intros H1 H2. apply Sorted_StronglySorted; [apply _|].
  apply Sorted_list_merge; [apply _ | |]; by apply StronglySorted_Sorted.
Qed.

Section one_pass.
Variable bs : nat.
Hypothesis bs_pos : (0 < bs)%nat.

Lemma length_merge_pairs (q : nat) (R W : list A) :
  length W = length R → (q * bs ≤ length R)%nat →
  length (merge_pairs bs q R W) = length R.
Proof.
  revert R W. induction q as [| |q IH] using nat_pair_ind;
    intros R W HW Hq; simpl.
  - done.
  - by rewrite length_list_merge, <- length_app, take_drop.
  - rewrite length_app, length_list_merge, IH.
    + rewrite !length_take, !length_drop. lia.
    + by rewrite !length_drop, HW.
    + rewrite length_drop. lia.
Qed.

Lemma merge_pairs_stable (q : nat) (R W : list A) :
  length W = length R → (q * bs ≤ length R < (q + 1) * bs)%nat →
  blocks_sorted bs R → stable (drop (q * bs) R) (drop (q * bs) W) →
  ∀ j, stable (take (j * (bs + bs)) R)
         (take (j * (bs + bs)) (merge_pairs bs q R W)).
Proof.
  revert R W. induction q as [| |q IH] using nat_pair_ind;
    intros R W HW Hq Hs Htail [|j]; try apply stable_refl.
  - simpl in *. rewrite !take_ge by lia. done.
  - simpl merge_pairs. rewrite !take_ge
      by (rewrite ?length_list_merge, ?length_take, ?length_drop; lia).
    rewrite <- (take_drop bs R) at 1. apply list_merge_stable.
    specialize (Hs 0%nat). simpl in Hs. apply Hs. lia.
  - simpl merge_pairs.
    replace (S j * (bs + bs))%nat with ((bs + bs) + j * (bs + bs))%nat by lia.
    rewrite <- (take_take_drop R (bs + bs)).
    rewrite take_app_add'
      by (rewrite length_list_merge, !length_take, !length_drop; lia).
    apply stable_app.
    + rewrite <- (take_take_drop R bs bs).
      apply list_merge_stable. specialize (Hs 0%nat). simpl in Hs.
      apply Hs. lia.
    + apply IH.
      * by rewrite !length_drop, HW.
      * rewrite length_drop. lia.
      * replace (bs + bs)%nat with (2 * bs)%nat by lia.
        by apply blocks_sorted_drop.
      * rewrite !drop_drop.
        by replace (bs + bs + q * bs)%nat with (S (S q) * bs)%nat by lia.
Qed.

Lemma merge_pairs_blocks_sorted (q : nat) (R W : list A) :
  length W = length R → (q * bs ≤ length R < (q + 1) * bs)%nat →
  blocks_sorted bs R → blocks_sorted (bs + bs) (merge_pairs bs q R W).
Proof.
  revert R W. induction q as [| |q IH] using nat_pair_ind;
    intros R W HW Hq Hs j Hj.
  - simpl in Hj. lia.
  - simpl in Hj. rewrite length_list_merge, <- length_app, take_drop in Hj.
    lia.
  - rewrite length_merge_pairs in Hj by (done || lia).
    simpl merge_pairs.
    assert (length (list_merge nlt (take bs R) (take bs (drop bs R)))
            = (bs + bs)%nat) as Hlen.
    { rewrite length_list_merge, !length_take, !length_drop. lia. }
    destruct j as [|j].
    + replace (0 * (bs + bs))%nat with 0%nat by lia.
      rewrite drop_0, take_app_length' by done.
      apply list_merge_sorted.
      * specialize (Hs 0%nat). simpl in Hs. apply Hs. lia.
      * specialize (Hs 1%nat). simpl in Hs. rewrite Nat.add_0_r in Hs.
        apply Hs. lia.
    + replace (S j * (bs + bs))%nat with ((bs + bs) + j * (bs + bs))%nat
        by lia.
      rewrite drop_app_add' by done. apply IH.
      * by rewrite !length_drop, HW.
      * rewrite length_drop. lia.
      * replace (bs + bs)%nat with (2 * bs)%nat by lia.
        by apply blocks_sorted_drop.
      * rewrite length_merge_pairs; rewrite !length_drop; lia.
Qed.
End one_pass.

Lemma stable_sym (l l' : list A) : stable l l' → stable l' l.
Proof. intros Hst x. by rewrite Hst. Qed.

Lemma pass_inv_whole (orig : list A) (bs : nat) (R W : list A) :
  (0 < bs)%nat → pass_inv orig bs R W → stable orig R.
Proof.
  intros Hbs (HR & _ & _ & Hpre & _).
  specialize (Hpre (length orig)). by rewrite !take_ge in Hpre by nia.
Qed.

Lemma pass_inv_start (orig : list A) :
  pass_inv orig 1 orig (replicate (length orig) elt_default).
Proof.
  split_and!; [done | by rewrite length_replicate | | intros; apply stable_refl |].
  - intros j Hj. destruct (drop (j * 1) orig) as [|y [|z l]]; simpl;
      repeat constructor.
  - rewrite Nat.div_1_r, Nat.mul_1_r.
    rewrite !drop_ge by (by rewrite ?length_replicate). apply stable_refl.
Qed.

Lemma pass_inv_step (orig : list A) (bs : nat) (R W : list A) :
  (0 < bs)%nat → pass_inv orig bs R W →
  pass_inv orig (bs + bs) (merge_pairs bs (length R / bs) R W) R.
Proof.
  intros Hbs Hinv. pose proof (pass_inv_whole _ _ _ _ Hbs Hinv) as Hwhole.
  destruct Hinv as (HR & HW & Hs & Hpre & Htail).
  set (q := (length R / bs)%nat).
  assert (q * bs ≤ length R ∧ length R < (q + 1) * bs)%nat as Hq.
  { unfold q. pose proof (Nat.div_mod_eq (length R) bs).
    pose proof (Nat.mod_upper_bound (length R) bs). nia. }
  split_and!.
  - rewrite length_merge_pairs; [done | done | congruence | lia].
  - done.
  - apply merge_pairs_blocks_sorted; [done | congruence | lia | done].
  - intros j. eapply stable_trans.
    + replace (j * (bs + bs))%nat with ((j + j) * bs)%nat by lia. apply Hpre.
    + replace ((j + j) * bs)%nat with (j * (bs + bs))%nat by lia.
      apply merge_pairs_stable; [done | congruence | lia | done |].
      eapply stable_trans.
      * apply stable_sym, stable_drop; [exact Hwhole | apply Hpre].
      * rewrite <- HR in Htail. exact Htail.
  - apply stable_drop; [done|].
    replace (length orig / (bs + bs) * (bs + bs))%nat
      with ((length orig / (bs + bs) + length orig / (bs + bs)) * bs)%nat
      by lia.
    apply Hpre.
Qed.

Lemma pass_loop_stable (orig : list A) (fuel fuel0 : nat) (bs : nat)
    (R W : list A) :
  (0 < bs)%nat → pass_inv orig bs R W →
  (length orig - bs ≤ fuel)%nat → (length orig ≤ fuel0)%nat →
  ∃ out, pass_loop fuel fuel0 R W (length orig) bs = Ok out ∧
    length out = length orig ∧ stable orig out.
Proof.
  revert bs R W.
  induction fuel as [|fuel IH]; intros bs R W Hbs Hinv Hfuel Hfuel0.
  { simpl. destruct (Nat.ltb_spec bs (length orig)); [lia|].
    exists R. split_and!; [done | by destruct Hinv |].
    by eapply pass_inv_whole. }
  simpl. destruct (Nat.ltb_spec bs (length orig)) as [Hlt|Hge].
  2:{ exists R. split_and!; [done | by destruct Hinv |].
      by eapply pass_inv_whole. }
  pose proof Hinv as (HR & HW & _).
  destruct (pair_loop_spec fuel0 fuel0 R W bs 0 Hbs) as (wh & Hrun);
    [congruence | lia | | lia |].
  { pose proof (Nat.div_mod_eq (length R) bs). nia. }
  rewrite Nat.sub_0_r in Hrun. simpl in Hrun. rewrite !drop_0 in Hrun.
  set (O := merge_pairs bs (length R / bs) R W) in Hrun.
  rewrite HR in Hrun. rewrite Hrun. simpl.
  apply IH; [lia | by apply pass_inv_step | lia | done].
Qed.

Lemma MergeSort_stable_run (fuel : nat) (collection : list A) :
  (length collection ≤ fuel)%nat →
  ∃ out, MergeSort fuel collection = Ok out ∧
    length out = length collection ∧ stable collection out.
Proof.
  intros Hfuel. unfold MergeSort.
  apply pass_loop_stable; [lia | apply pass_inv_start | lia | done].
Qed.
End stability.

Lemma keyed_equiv_class (k : Z) (l : list (Z * string)) :
  equiv_class (k, EmptyString) l = filter (λ e, e.1 = k) l.
Proof.
  unfold equiv_class. apply list_filter_iff. intros [k' t].
  unfold elt_equiv. simpl.
  destruct (Z.ltb_spec k k'), (Z.ltb_spec k' k); simpl; split; (done || lia).
Qed.

(** C5. In a merge step with both blocks non-empty the head of the right
    block is written only when it compares strictly less than the head of
    the left block; otherwise, so also on a tie, the head of the left
    block is written.  Consequently every class of equivalent elements
    leaves [MergeSort] in the order in which it came in; for records
    compared by a numeric key, the records of each key keep their order,
    as in the example of the specification. *)
Theorem MergeSort_stable :
  (∀ (A : Type) (ord : Ordered A) (fuel : nat) (R W : list A)
     (first last firstNext lastNext writeHead : nat) (l r : A),
      first ≠ last → firstNext ≠ lastNext →
      R !! first = Some l → R !! firstNext = Some r →
      (writeHead < length W)%nat →
      merge_loop (S fuel) R W first last firstNext lastNext writeHead =
        if elt_lt r l
        then merge_loop fuel R (<[writeHead := r]> W) first last
               (S firstNext) lastNext (S writeHead)
        else merge_loop fuel R (<[writeHead := l]> W) (S first) last
               firstNext lastNext (S writeHead)) ∧
  (∀ (A : Type) (ord : Ordered A) (SW : StrictWeak A) (fuel : nat)
     (collection : list A),
      (length collection ≤ fuel)%nat →
      ∃ out, MergeSort fuel collection = Ok out ∧
        length out = length collection ∧ stable collection out) ∧
  (∀ (fuel : nat) (collection : list (Z * string)),
      (length collection ≤ fuel)%nat →
      ∃ out, MergeSort fuel collection = Ok out ∧
        ∀ k : Z, filter (λ e, e.1 = k) out = filter (λ e, e.1 = k) collection) ∧
  MergeSort 3 [(5, "a"); (3, "b"); (5, "c")]%string
    = Ok [(3, "b"); (5, "a"); (5, "c")]%string.
Proof.
  split_and!.
  - intros A ord fuel R W first last firstNext lastNext writeHead l r
      HneL HneR Hl Hr Hw.
    simpl. destruct (Nat.eqb_spec firstNext lastNext) as [?|_]; [done|].
    destruct (Nat.eqb_spec first last) as [?|_]; [done|]. simpl.
    unfold rd, wr. rewrite Hl, Hr. simpl.
    by destruct (elt_lt r l); rewrite decide_True by done.
  - intros A ord SW fuel collection Hfuel. by apply MergeSort_stable_run.
  - intros fuel collection Hfuel.
    destruct (MergeSort_stable_run fuel collection Hfuel)
      as (out & Hrun & _ & Hstable).
    exists out. split; [done|]. intros k.
    rewrite <- !keyed_equiv_class. apply Hstable.
  - reflexivity.
Qed.

(** * Further properties of the sorting functions *)

(** ** IsSorted and the order of all pairs *)

Lemma StronglySorted_pairs {A : Type} (R : relation A) (l : list A) :
  StronglySorted R l ↔
  ∀ (i j : nat) (a b : A), (i < j)%nat → l !! i = Some a → l !! j = Some b →
    R a b.
Proof.
  induction l as [|x l IH].
  - split; [intros _ i j a b _ Hi; done | constructor].
  - rewrite StronglySorted_cons, IH, Forall_forall. split.
    + intros [Hx Hl] [|i] [|j] a b Hij Ha Hb; simplify_eq/=; try lia.
      * apply Hx. by eapply list_elem_of_lookup_2.
      * eapply (Hl i j); [lia | done..].
    + intros Hall. split.
      * intros y [j Hj]%list_elem_of_lookup.
        by apply (Hall 0%nat (S j)); [lia | |].
      * intros i j a b Hij Ha Hb. by apply (Hall (S i) (S j)); [lia | |].
Qed.

(** X1. For a strict weak ordering the adjacent comparisons of [IsSorted]
    decide the order of every pair: [IsSorted] returns [true] exactly when
    the range is not empty and no element is less than an element before
    it, however far apart the two are. *)
Theorem IsSorted_all_pairs {A : Type} {ord : Ordered A} {SW : StrictWeak A}
    (range : list A) :
  IsSorted range = Ok true ↔
  range ≠ [] ∧
  ∀ (i j : nat) (a b : A), (i < j)%nat →
    range !! i = Some a → range !! j = Some b → elt_lt b a = false.
Proof.
  rewrite IsSorted_StronglySorted. by rewrite StronglySorted_pairs.
Qed.

Lemma IsSorted_all_pairs_witness :
  IsSorted [1; 2; 2; 5] = Ok true ∧ elt_lt (5 : Z) 1 = false.
Proof.
  split; [reflexivity|].
  destruct (IsSorted_all_pairs [1; 2; 2; 5]) as [Hpairs _].
  destruct (Hpairs eq_refl) as [_ Hall].
  apply (Hall 0%nat 3%nat); [lia | reflexivity | reflexivity].
Defined.

(** ** MergeSort loses no element *)

Section stable_permutation.
Context {A : Type} {ord : Ordered A} {SW : StrictWeak A}.

Lemma elt_equiv_refl (x : A) : elt_equiv x x = true.
Proof. unfold elt_equiv. by rewrite elt_lt_irrefl. Qed.

Lemma elt_equiv_sym (x y : A) : elt_equiv x y = elt_equiv y x.
Proof. unfold elt_equiv. apply andb_comm. Qed.

Lemma elt_equiv_trans (x y z : A) :
  elt_equiv x y = true → elt_equiv y z = true → elt_equiv x z = true.
Proof.
  unfold elt_equiv.
  intros [Hxy%negb_true_iff Hyx%negb_true_iff]%andb_true_iff
         [Hyz%negb_true_iff Hzy%negb_true_iff]%andb_true_iff.
  by rewrite (elt_nlt_trans x y z), (elt_nlt_trans z y x).
Qed.

(** The elements of [l] outside the class of [x]. *)
Lemma equiv_class_outside (x y : A) (l : list A) :
  equiv_class y (filter (λ a, ¬ (elt_equiv x a = true)) l)
    = if elt_equiv x y then [] else equiv_class y l.
Proof.
  induction l as [|a l IH]; [by destruct (elt_equiv x y)|].
  rewrite filter_cons, (equiv_class_cons y a). case_decide as Hxa.
  - rewrite equiv_class_cons, IH.
    destruct (elt_equiv x y) eqn:Hxy, (elt_equiv y a) eqn:Hya; try done.
    by rewrite (elt_equiv_trans x y a) in Hxa.
  - rewrite IH.
    destruct (elt_equiv x y) eqn:Hxy, (elt_equiv y a) eqn:Hya; try done.
    rewrite elt_equiv_sym in Hya.
    by rewrite (elt_equiv_trans x a y) in Hxy.
Qed.

Lemma stable_Permutation (l l' : list A) : stable l l' → l' ≡ₚ l.
Proof.
  remember (length l) as n eqn:Hn. revert l l' Hn.
  induction n as [n IH] using lt_wf_ind; intros l l' -> Hst.
  destruct l as [|x l0].
  { destruct l' as [|y l']; [done|]. specialize (Hst y).
    rewrite equiv_class_cons, elt_equiv_refl in Hst. done. }
  set (l := x :: l0) in *.
  rewrite <- (filter_app_complement (λ a, elt_equiv x a = true) l').
  rewrite <- (filter_app_complement (λ a, elt_equiv x a = true) l).
  f_equiv; [change (equiv_class x l' ≡ₚ equiv_class x l); by rewrite (Hst x)|].
  eapply (IH (length (filter (λ a, ¬ (elt_equiv x a = true)) l)));
    [|done|].
  - unfold l. rewrite filter_cons_False by (by rewrite elt_equiv_refl; intros []).
    pose proof (length_filter (λ a, ¬ (elt_equiv x a = true)) l0). simpl. lia.
  - intros y. rewrite !equiv_class_outside. by rewrite (Hst y).
Qed.
End stable_permutation.

(** X2. [MergeSort] returns, for every sequence, a sequence of the same
    length with the same elements: also on the lengths on which a partial
    block is left stale, no element is lost or duplicated. *)
Theorem MergeSort_permutation {A : Type} {ord : Ordered A}
    {SW : StrictWeak A} (fuel : nat) (collection : list A) :
  (length collection ≤ fuel)%nat →
  ∃ out, MergeSort fuel collection = Ok out ∧
    length out = length collection ∧ out ≡ₚ collection.
Proof.
  intros Hfuel.
  destruct (MergeSort_stable_run fuel collection Hfuel)
    as (out & Hrun & Hlen & Hst).
  exists out. split_and!; [done..|]. by apply stable_Permutation.
Qed.

Lemma MergeSort_permutation_witness :
  ∃ out, MergeSort 11 [0; 0; 0; 0; 0; 0; 0; 0; 5; 6; 1] = Ok out ∧
    out ≡ₚ [0; 0; 0; 0; 0; 0; 0; 0; 5; 6; 1].
Proof.
  destruct (MergeSort_permutation 11 [0; 0; 0; 0; 0; 0; 0; 0; 5; 6; 1])
    as (out & Hrun & _ & Hperm).
  - simpl. lia.
  - exists out. split; [exact Hrun | exact Hperm].
Defined.

(** ** MergeSort on the lengths that leave no stale block *)

Section sorted_passes.
Context {A : Type} {ord : Ordered A} {SW : StrictWeak A}.

Lemma half_succ_succ (q : nat) : (S (S q) / 2 = S (q / 2))%nat.
Proof.
  replace (S (S q)) with (q + 1 * 2)%nat by lia. rewrite Nat.div_add by lia.
  lia.
Qed.

(** What a pass leaves behind the last pair of full blocks. *)
Lemma merge_pairs_tail (bs q : nat) (R W : list A) :
  (0 < bs)%nat → length W = length R → (q * bs ≤ length R)%nat →
  drop (q / 2 * (bs + bs)) (merge_pairs bs q R W)
    = if Nat.even q then drop (q * bs) W
      else list_merge nlt (take bs (drop ((q - 1) * bs) R)) (drop (q * bs) R).
Proof.
  intros Hbs. revert R W.
  induction q as [| |q IH] using nat_pair_ind; intros R W HW Hq.
  - done.
  - simpl. by rewrite Nat.add_0_r, !drop_0.
  - rewrite half_succ_succ. simpl merge_pairs.
    replace (S (q / 2) * (bs + bs))%nat
      with ((bs + bs) + q / 2 * (bs + bs))%nat by lia.
    rewrite drop_app_add'
      by (rewrite length_list_merge, !length_take, !length_drop; lia).
    rewrite IH; [|by rewrite !length_drop, HW | rewrite length_drop; lia].
    change (Nat.even (S (S q))) with (Nat.even q).
    destruct (Nat.even q) eqn:Heven.
    + rewrite drop_drop. f_equal. lia.
    + assert (q ≠ 0)%nat by (by intros ->).
      rewrite !drop_drop.
      replace (bs + bs + (q - 1) * bs)%nat with ((S (S q) - 1) * bs)%nat
        by nia.
      by replace (bs + bs + q * bs)%nat with (S (S q) * bs)%nat by lia.
Qed.

Lemma sort_inv_start (collection : list A) :
  sort_inv (length collection) 1 collection
    (replicate (length collection) elt_default).
Proof.
  split_and!; [done | by rewrite length_replicate | | |].
  - intros j Hj. destruct (drop (j * 1) collection) as [|y [|z l]]; simpl;
      repeat constructor.
  - rewrite Nat.div_1_r, Nat.mul_1_r, drop_ge by done. constructor.
  - intros _ _. rewrite Nat.div_1_r, Nat.mul_1_r.
    rewrite drop_ge by (by rewrite length_replicate). constructor.
Qed.

Lemma sort_inv_step (n k : nat) (R W : list A) :
  safe_length n → (2 ^ k < n)%nat → sort_inv n (2 ^ k) R W →
  sort_inv n (2 ^ k + 2 ^ k) (merge_pairs (2 ^ k) (n / 2 ^ k) R W) R.
Proof.
  intros Hsafe Hlt (HR & HW & Hblocks & Htail & HWtail).
  set (bs := (2 ^ k)%nat) in *. set (q := (n / bs)%nat) in *.
  assert (0 < bs)%nat as Hbs.
  { unfold bs. pose proof (Nat.pow_nonzero 2 k). lia. }
  assert (q * bs ≤ n ∧ n < (q + 1) * bs)%nat as Hq.
  { unfold q. pose proof (Nat.div_mod_eq n bs).
    pose proof (Nat.mod_upper_bound n bs). nia. }
  assert (n / (bs + bs) = q / 2)%nat as Hhalf.
  { unfold q. rewrite Nat.Div0.div_div. f_equal. lia. }
  assert (q = 2 * (q / 2) + (if Nat.even q then 0 else 1))%nat as Hparity.
  { pose proof (Nat.div_mod_eq q 2) as Hdm.
    destruct (Nat.even q) eqn:Heven.
    - apply Nat.even_spec in Heven as [m ->].
      rewrite (Nat.mul_comm 2 m), Nat.div_mul by lia. lia.
    - assert (Nat.odd q = true) as [m ->]%Nat.odd_spec
        by (by rewrite <- Nat.negb_even, Heven).
      replace (2 * m + 1)%nat with (1 + m * 2)%nat by lia.
      rewrite Nat.div_add by lia. simpl. lia. }
  split_and!.
  - rewrite length_merge_pairs; [done | done | congruence | lia].
  - done.
  - apply merge_pairs_blocks_sorted; [done | congruence | lia | done].
  - rewrite Hhalf, merge_pairs_tail; [|done | congruence | lia].
    destruct (Nat.even q) eqn:Heven.
    + by apply HWtail.
    + apply list_merge_sorted; [|done].
      apply Hblocks. rewrite HR. nia.
  - rewrite Hhalf. intros Hnext Heven'.
    destruct (Nat.even q) eqn:Heven.
    + replace (q / 2 * (bs + bs))%nat with (q * bs)%nat by lia. done.
    + assert (n mod bs = 0)%nat as Hmod.
      { apply Hsafe; fold bs; fold q.
        - lia.
        - by rewrite <- Nat.negb_even, Heven.
        - replace (2 * bs)%nat with (bs + bs)%nat by lia. by rewrite Hhalf. }
      pose proof (Nat.div_mod_eq n bs) as Hdm. fold q in Hdm.
      replace (q / 2 * (bs + bs))%nat with ((q - 1) * bs)%nat by nia.
      rewrite <- (take_ge (drop ((q - 1) * bs) R) bs)
        by (rewrite length_drop; nia).
      apply Hblocks. rewrite HR. nia.
Qed.

Lemma pass_loop_sorted (n fuel fuel0 k : nat) (R W : list A) :
  safe_length n → sort_inv n (2 ^ k) R W →
  (n - 2 ^ k ≤ fuel)%nat → (n ≤ fuel0)%nat →
  ∃ out, pass_loop fuel fuel0 R W n (2 ^ k) = Ok out ∧
    StronglySorted nlt out.
Proof.
  intros Hsafe. revert k R W.
  assert (∀ k R W, sort_inv n (2 ^ k) R W → (n ≤ 2 ^ k)%nat →
            StronglySorted nlt R) as Hexit.
  { intros k R W (HR & _ & Hblocks & Htail & _) Hge.
    destruct (decide (n = 2 ^ k)%nat) as [Heq|Hne].
    - rewrite <- (take_ge R (2 ^ k)) by lia.
      specialize (Hblocks 0%nat). simpl in Hblocks. apply Hblocks. lia.
    - rewrite Nat.div_small in Htail by lia. by rewrite drop_0 in Htail. }
  induction fuel as [|fuel IH]; intros k R W Hinv Hfuel Hfuel0.
  { simpl. destruct (Nat.ltb_spec (2 ^ k) n); [lia|].
    exists R. split; [done|]. by eapply Hexit. }
  simpl. destruct (Nat.ltb_spec (2 ^ k) n) as [Hlt|Hge].
  2:{ exists R. split; [done|]. by eapply Hexit. }
  pose proof Hinv as (HR & HW & _).
  assert (0 < 2 ^ k)%nat as Hbs.
  { pose proof (Nat.pow_nonzero 2 k). lia. }
  destruct (pair_loop_spec fuel0 fuel0 R W (2 ^ k) 0 Hbs) as (wh & Hrun);
    [congruence | lia | | lia |].
  { pose proof (Nat.div_mod_eq (length R) (2 ^ k)). nia. }
  rewrite Nat.sub_0_r in Hrun. simpl in Hrun. rewrite !drop_0 in Hrun.
  rewrite HR in Hrun. rewrite Hrun. simpl.
  replace (2 ^ k + 2 ^ k)%nat with (2 ^ S k)%nat by (simpl; lia).
  apply IH; [|simpl; lia | done].
  replace (2 ^ S k)%nat with (2 ^ k + 2 ^ k)%nat by (simpl; lia).
  by apply sort_inv_step.
Qed.

Lemma MergeSort_sorted_run (fuel : nat) (collection : list A) :
  safe_length (length collection) → (length collection ≤ fuel)%nat →
  ∃ out, MergeSort fuel collection = Ok out ∧ out ≡ₚ collection ∧
    stable collection out ∧ ascending out ∧
    (collection = [] ∨ IsSorted out = Ok true).
Proof.
  intros Hsafe Hfuel.
  destruct (MergeSort_stable_run fuel collection Hfuel)
    as (out & Hrun & Hlen & Hst).
  destruct (pass_loop_sorted (length collection) fuel fuel 0 collection
              (replicate (length collection) elt_default))
    as (out' & Hrun' & Hsorted); [done | apply sort_inv_start | lia | done |].
  change (MergeSort fuel collection = Ok out') in Hrun'.
  rewrite Hrun in Hrun'. injection Hrun' as <-.
  exists out. split_and!; [done | by apply stable_Permutation | done | |].
  - by apply ascending_Sorted, StronglySorted_Sorted.
  - destruct collection as [|x l]; [by left | right].
    apply IsSorted_StronglySorted. split; [|done].
    intros ->. done.
Qed.
End sorted_passes.

Lemma safe_length_pow2 (m : nat) : safe_length (2 ^ m).
Proof.
  intros k Hlt Hodd _.
  assert (S k < m)%nat as Hkm.
  { apply (Nat.pow_lt_mono_r_iff 2); [lia|]. simpl. lia. }
  replace m with (k + (m - k))%nat in Hodd by lia.
  rewrite Nat.pow_add_r, (Nat.mul_comm (2 ^ k)), Nat.div_mul in Hodd
    by (apply Nat.pow_nonzero; lia).
  rewrite Nat.odd_pow in Hodd by lia. done.
Qed.

Lemma safe_length_le_10 (n : nat) : (n ≤ 10)%nat → safe_length n.
Proof.
  intros Hn k Hlt Hodd Heven.
  destruct k as [|[|[|k]]].
  - change (2 ^ 0)%nat with 1%nat. apply Nat.mod_1_r.
  - do 11 (destruct n as [|n];
           [vm_compute in Hlt, Hodd, Heven |- *; (done || lia)|]).
    lia.
  - do 11 (destruct n as [|n];
           [vm_compute in Hlt, Hodd, Heven |- *; (done || lia)|]).
    lia.
  - pose proof (Nat.pow_nonzero 2 k). simpl in Hlt. lia.
Qed.

Lemma safe_length_100 : safe_length 100.
Proof.
  intros k Hlt Hodd Heven.
  do 6 (destruct k as [|k]; [vm_compute in Hodd, Heven |- *; done|]).
  pose proof (Nat.pow_nonzero 2 k). simpl in Hlt. lia.
Qed.

(** X3. [MergeSort] returns a sorted, stable permutation of a sequence of
    length [n] whenever [n] is a safe length: whenever a pass with blocks of
    [2^k] elements has an odd number of full blocks and the next pass, if
    there is one, an even number, [n] is a multiple of [2^k]. *)
Theorem MergeSort_safe_length {A : Type} {ord : Ordered A}
    {SW : StrictWeak A} (fuel : nat) (collection : list A) :
  safe_length (length collection) → (length collection ≤ fuel)%nat →
  ∃ out, MergeSort fuel collection = Ok out ∧ out ≡ₚ collection ∧
    stable collection out ∧ ascending out ∧
    (collection = [] ∨ IsSorted out = Ok true).
Proof. apply MergeSort_sorted_run. Qed.

Lemma MergeSort_safe_length_witness :
  ∃ out, MergeSort 12 [9; 8; 7; 6; 5; 4; 3; 2; 1; 0; 11; 5] = Ok out ∧
    IsSorted out = Ok true.
Proof.
  destruct (MergeSort_safe_length 12 [9; 8; 7; 6; 5; 4; 3; 2; 1; 0; 11; 5])
    as (out & Hrun & _ & _ & _ & [Hnil|Hsorted]).
  - intros k Hlt Hodd Heven.
    do 3 (destruct k as [|k]; [vm_compute in Hodd, Heven |- *; done|]).
    pose proof (Nat.pow_nonzero 2 k). simpl in Hlt. lia.
  - simpl. lia.
  - done.
  - exists out. split; [exact Hrun | exact Hsorted].
Defined.

(** X4. Every length up to 10 and every power of two is a safe length:
    on such a sequence [MergeSort] returns a sorted permutation, so the
    eleven elements of the failing input are the fewest possible. *)
Theorem MergeSort_short_or_power_of_two {A : Type} {ord : Ordered A}
    {SW : StrictWeak A} (fuel : nat) (collection : list A) :
  (length collection ≤ 10)%nat ∨ (∃ m : nat, length collection = (2 ^ m)%nat) →
  (length collection ≤ fuel)%nat →
  ∃ out, MergeSort fuel collection = Ok out ∧ out ≡ₚ collection ∧
    ascending out.
Proof.
  intros Hlen Hfuel.
  destruct (MergeSort_sorted_run fuel collection)
    as (out & Hrun & Hperm & _ & Hasc & _); [|done|by exists out].
  destruct Hlen as [Hle|[m ->]].
  - by apply safe_length_le_10.
  - apply safe_length_pow2.
Qed.

Lemma MergeSort_short_or_power_of_two_witness :
  ∃ out, MergeSort 8 [7; 3; 5; 3; 9; 0; 2; 2] = Ok out ∧ ascending out.
Proof.
  destruct (MergeSort_short_or_power_of_two 8 [7; 3; 5; 3; 9; 0; 2; 2])
    as (out & Hrun & _ & Hasc).
  - left. simpl. lia.
  - simpl. lia.
  - exists out. split; [exact Hrun | exact Hasc].
Defined.

(** ** TestSorting *)

(** X10. The two [IsSorted] assertions of the merge sort test hold for
    every content of [m] and [arr]: 100, the tested [ELEMENT_COUNT], is a
    safe length, so the test cannot see the stale partial block. *)
Theorem TestSorting_MergeSort_passes (fuel : nat) (m arr : list Z) :
  length m = ELEMENT_COUNT → length arr = ELEMENT_COUNT →
  (ELEMENT_COUNT ≤ fuel)%nat →
  TestSorting_MergeSort fuel m arr = Ok tt.
Proof.
  intros Hm Harr Hfuel. unfold TestSorting_MergeSort.
  destruct (MergeSort_sorted_run fuel m)
    as (m' & -> & _ & _ & _ & [->|Hsorted]);
    [rewrite Hm; apply safe_length_100 | lia | done |].
  simpl. rewrite Hsorted. simpl.
  destruct (MergeSort_sorted_run fuel arr)
    as (arr' & -> & _ & _ & _ & [->|Hsorted']);
    [rewrite Harr; apply safe_length_100 | lia | done |].
  simpl. by rewrite Hsorted'.
Qed.

Lemma TestSorting_MergeSort_passes_witness :
  TestSorting_MergeSort 100 ((λ i, Z.of_nat (i * 37 mod 100)) <$> seq 0 100)
    (Z.of_nat <$> reverse (seq 0 100)) = Ok tt.
Proof.
  apply TestSorting_MergeSort_passes; [reflexivity | reflexivity |].
  unfold ELEMENT_COUNT. lia.
Defined.

(** X11. The two [IsSorted] assertions of the quick sort test hold for
    every content of [m] and [arr]. *)
Theorem TestSorting_QuickSort_passes (fuel : nat) (m arr : list Z) :
  length m = ELEMENT_COUNT → length arr = ELEMENT_COUNT →
  (ELEMENT_COUNT ≤ fuel)%nat →
  TestSorting_QuickSort fuel m arr = Ok tt.
Proof.
  intros Hm Harr Hfuel. unfold TestSorting_QuickSort.
  destruct (QuickSort_sorts fuel m) as (m' & -> & _ & Hsorted);
    [by intros -> | lia |].
  simpl. rewrite Hsorted. simpl.
  destruct (QuickSort_sorts fuel arr) as (arr' & -> & _ & Hsorted');
    [by intros -> | lia |].
  simpl. by rewrite Hsorted'.
Qed.

Lemma TestSorting_QuickSort_passes_witness :
  TestSorting_QuickSort 100 ((λ i, Z.of_nat (i * 37 mod 100)) <$> seq 0 100)
    (Z.of_nat <$> reverse (seq 0 100)) = Ok tt.
Proof.
  apply TestSorting_QuickSort_passes; [reflexivity | reflexivity |].
  unfold ELEMENT_COUNT. lia.
Defined.

(** X12. The [IsSorted] assertion of the insertion sort test holds for
    every content and every length of [m]: the ten values 0 to 9 that the
    test pushes are a non-empty ascending destination. *)
Theorem TestSorting_InsertionSort_passes (fuel : nat) (m : list Z) :
  (SORTED_ELEMENT_COUNT + length m ≤ fuel)%nat →
  TestSorting_InsertionSort fuel m = Ok tt.
Proof.
  intros Hfuel. unfold TestSorting_InsertionSort, InsertionSort.
  change (Z.of_nat <$> seq 0 SORTED_ELEMENT_COUNT)
    with [0; 1; 2; 3; 4; 5; 6; 7; 8; 9].
  cbn -[InsertionSort_loop].
  destruct (InsertionSort_loop_sorted fuel m [0; 1; 2; 3; 4; 5; 6; 7; 8; 9])
    as (out & -> & _ & Hne & Hsorted & _).
  - done.
  - apply Sorted_StronglySorted; [apply _|]. apply ascending_Sorted.
    by apply (IsSorted_loop_ascending 0 [1; 2; 3; 4; 5; 6; 7; 8; 9]).
  - exact Hfuel.
  - simpl. by rewrite (proj2 (IsSorted_StronglySorted out)).
Qed.

Lemma TestSorting_InsertionSort_passes_witness :
  TestSorting_InsertionSort 20 [5; 3; 99; 0; 0; 42] = Ok tt.
Proof.
  apply TestSorting_InsertionSort_passes.
  unfold SORTED_ELEMENT_COUNT. simpl. lia.
Defined.

(** ** Sequences that are sorted already *)

Section sorted_input.
Context {A : Type} {ord : Ordered A} {SW : StrictWeak A}.

Lemma list_merge_app_sorted (L T : list A) :
  StronglySorted nlt (L ++ T) → list_merge nlt L T = L ++ T.
Proof.
  revert T. induction L as [|a L IH]; intros T Hs.
  { by rewrite list_merge_nil_l. }
  destruct T as [|b T].
  { by rewrite list_merge_nil_r, app_nil_r. }
  rewrite list_merge_cons. simpl in Hs.
  apply StronglySorted_cons in Hs as [Ha Hs].
  rewrite decide_True.
  - simpl. f_equal. by apply IH.
  - rewrite Forall_forall in Ha. apply Ha.
    rewrite elem_of_app. right. constructor.
Qed.

Lemma merge_pairs_sorted_input (bs q : nat) (R W : list A) :
  StronglySorted nlt R → drop (q * bs) W = drop (q * bs) R →
  merge_pairs bs q R W = R.
Proof.
  revert R W. induction q as [| |q IH] using nat_pair_ind; intros R W Hs Htail.
  - simpl in *. by rewrite !drop_0 in Htail.
  - simpl. rewrite list_merge_app_sorted; by rewrite take_drop.
  - simpl merge_pairs. rewrite <- (take_drop (bs + bs) R) in Hs.
    apply StronglySorted_app in Hs as (_ & Hs1 & Hs2).
    rewrite <- (take_take_drop R bs bs) in Hs1.
    rewrite list_merge_app_sorted by done.
    rewrite take_take_drop, IH; [apply take_drop | done |].
    rewrite !drop_drop.
    by replace (bs + bs + q * bs)%nat with (S (S q) * bs)%nat by lia.
Qed.

Lemma pass_loop_sorted_input (fuel fuel0 bs : nat) (R W : list A) :
  (0 < bs)%nat → StronglySorted nlt R → length W = length R →
  drop (length R / bs * bs) W = drop (length R / bs * bs) R →
  (length R - bs ≤ fuel)%nat → (length R ≤ fuel0)%nat →
  pass_loop fuel fuel0 R W (length R) bs = Ok R.
Proof.
  revert bs W. induction fuel as [|fuel IH]; intros bs W Hbs Hs HW Htail Hf Hf0.
  { simpl. by destruct (Nat.ltb_spec bs (length R)); [lia|]. }
  simpl. destruct (Nat.ltb_spec bs (length R)) as [Hlt|Hge]; [|done].
  destruct (pair_loop_spec fuel0 fuel0 R W bs 0 Hbs) as (wh & Hrun);
    [done | lia | | lia |].
  { pose proof (Nat.div_mod_eq (length R) bs). nia. }
  rewrite Nat.sub_0_r in Hrun. simpl in Hrun. rewrite !drop_0 in Hrun.
  rewrite merge_pairs_sorted_input in Hrun by done.
  rewrite Hrun. simpl. apply IH; [lia | done | done | done | lia | done].
Qed.

Lemma partition_loop_no_larger (fuel : nat) (buf : list A)
    (second ct : Z) (pv : A) :
  get buf (second - 1) = Some pv → 0 ≤ ct ≤ second →
  second ≤ Z.of_nat (length buf) →
  (∀ i x, ct ≤ i < second → get buf i = Some x → elt_lt pv x = false) →
  second - ct ≤ Z.of_nat fuel →
  partition_loop fuel buf (second - 1) second (second - 1) ct
    = Ok (buf, second - 1).
Proof.
  intros Hpv. revert ct.
  induction fuel as [|fuel IH]; intros ct Hct Hlen Hle Hfuel.
  { assert (ct = second) as -> by lia. simpl. by rewrite Z.eqb_refl. }
  simpl. destruct (Z.eqb_spec ct second) as [->|Hne]; [done|]. simpl.
  destruct (get_in_range buf ct) as [c Hc]; [lia|].
  rewrite (deref_get _ _ _ Hc), (deref_get _ _ _ Hpv). simpl.
  rewrite elt_le_lt, elt_gt_lt, (Hle ct c) by (done || lia).
  rewrite Z.eqb_refl. simpl. apply IH; [lia | done | | lia].
  intros i x Hi. apply Hle. lia.
Qed.

Lemma partition_sorted_input (fuel : nat) (buf : list A) (first second : Z) :
  StronglySorted nlt buf →
  0 ≤ first < second ∧ second ≤ Z.of_nat (length buf) →
  second - first ≤ Z.of_nat fuel →
  partition fuel buf (first, second) = Ok (buf, second - 1).
Proof.
  intros Hs Hrange Hfuel. unfold partition. simpl.
  destruct (get_in_range buf (second - 1)) as [pv Hpv]; [lia|].
  rewrite (partition_loop_no_larger fuel buf second first pv);
    [| done | lia | lia | | done].
  - simpl. by rewrite (swap_self _ _ _ Hpv).
  - intros i x Hi Hx. destruct (decide (i = second - 1)) as [->|Hne].
    + rewrite Hpv in Hx. simplify_eq. apply elt_lt_irrefl.
    + rewrite StronglySorted_pairs in Hs. unfold get in Hx, Hpv.
      rewrite decide_True in Hx by lia. rewrite decide_True in Hpv by lia.
      apply (Hs (Z.to_nat i) (Z.to_nat (second - 1))); [lia | done | done].
Qed.

Lemma QuickSort_loop_sorted_input (fuel fuel0 : nat) (buf : list A) (m : Z) :
  StronglySorted nlt buf → 1 ≤ m ≤ Z.of_nat (length buf) →
  m ≤ Z.of_nat fuel → (length buf ≤ fuel0)%nat →
  QuickSort_loop fuel fuel0 buf [(0, m)] = Ok buf.
Proof.
  intros Hs. revert m.
  induction fuel as [|fuel IH]; intros m Hm Hfuel Hfuel0; [lia|].
  simpl. rewrite partition_sorted_input; [|done | lia | lia].
  simpl. unfold push_ranges. simpl.
  destruct (Z.ltb_spec 1 (m - (m - 1 + 1))) as [?|_]; [lia|].
  destruct (Z.ltb_spec 1 (m - 1 - 0)) as [Hbig|Hsmall].
  - apply IH; [lia | lia | done].
  - by destruct fuel.
Qed.
End sorted_input.

(** X5. [MergeSort] returns a sequence that is ascending already exactly
    as it was given, whatever its length: every pass merges blocks that
    are in order, so both buffers hold the input after the first pass and
    a block that is left unwritten is not stale. *)
Theorem MergeSort_sorted_input {A : Type} {ord : Ordered A}
    {SW : StrictWeak A} (fuel : nat) (collection : list A) :
  ascending collection → (length collection ≤ fuel)%nat →
  MergeSort fuel collection = Ok collection.
Proof.
  intros Hasc Hfuel. unfold MergeSort.
  apply pass_loop_sorted_input; [lia | | | | lia | done].
  - apply Sorted_StronglySorted; [apply _|]. by apply ascending_Sorted.
  - by rewrite length_replicate.
  - rewrite Nat.div_1_r, Nat.mul_1_r.
    by rewrite !drop_ge by (by rewrite ?length_replicate).
Qed.

Lemma MergeSort_sorted_input_witness :
  MergeSort 11 [0; 1; 1; 2; 3; 5; 8; 13; 21; 34; 55]
    = Ok [0; 1; 1; 2; 3; 5; 8; 13; 21; 34; 55].
Proof.
  apply MergeSort_sorted_input.
  - apply (IsSorted_loop_ascending 0 [1; 1; 2; 3; 5; 8; 13; 21; 34; 55]).
    reflexivity.
  - simpl. lia.
Defined.

(** X6. [QuickSort] returns a non-empty sequence that is ascending already
    exactly as it was given: no pass finds an element above the pivot, so
    the only swap of a pass is the one of the pivot with itself, and the
    next range is the same range without its last element. *)
Theorem QuickSort_sorted_input {A : Type} {ord : Ordered A}
    {SW : StrictWeak A} (fuel : nat) (collection : list A) :
  collection ≠ [] → ascending collection → (length collection ≤ fuel)%nat →
  QuickSort fuel collection = Ok collection.
Proof.
  intros Hne Hasc Hfuel. unfold QuickSort.
  apply QuickSort_loop_sorted_input; [| | lia | done].
  - apply Sorted_StronglySorted; [apply _|]. by apply ascending_Sorted.
  - destruct collection; [done | simpl; lia].
Qed.

Lemma QuickSort_sorted_input_witness :
  QuickSort 6 [(1, "a"); (1, "b"); (2, "c"); (2, "d"); (2, "e"); (7, "f")]%string
    = Ok [(1, "a"); (1, "b"); (2, "c"); (2, "d"); (2, "e"); (7, "f")]%string.
Proof.
  apply QuickSort_sorted_input.
  - done.
  - apply (IsSorted_loop_ascending (1, "a")%string
             [(1, "b"); (2, "c"); (2, "d"); (2, "e"); (7, "f")]%string).
    reflexivity.
  - simpl. lia.
Defined.

(** ** InsertionSort: where an element goes *)

Section insertion_position.
Context {A : Type} {ord : Ordered A} {SW : StrictWeak A}.

Lemma insert_element_position (fuel : nat) (destination : list A)
    (element : A) :
  destination ≠ [] → StronglySorted nlt destination →
  (length destination ≤ fuel)%nat →
  ∃ k : nat, (k ≤ length destination)%nat ∧
    insert_element fuel destination element
      = Ok (take k destination ++ element :: drop k destination) ∧
    Forall (λ x, elt_lt x element = true) (take k destination) ∧
    Forall (λ x, elt_lt x element = false) (drop k destination).
Proof.
  intros Hne Hs Hfuel. unfold insert_element.
  assert (0 < length destination)%nat as Hlen.
  { destruct destination; [done | simpl; lia]. }
  destruct (search_loop_window element destination Hs fuel 0
              (Z.of_nat (length destination))) as (s & -> & Hw).
  { split_and!; [lia..| |].
    - by rewrite take_0.
    - rewrite Nat2Z.id, drop_all. constructor. }
  { lia. }
  destruct Hw as (Hs0 & Hs1 & Hlo & Hhi). simpl.
  replace (s + (s + 1 - s) / 2) with s
    by (replace (s + 1 - s) with 1 by lia; change (1 / 2) with 0; lia).
  destruct (deref_lookup destination s) as (pivot & Hpivot & ->); [lia|].
  simpl. rewrite elt_gt_lt. unfold insert_at.
  replace (Z.to_nat (s + 1)) with (S (Z.to_nat s)) in * by lia.
  destruct (elt_lt pivot element) eqn:Hgt.
  - rewrite decide_True by lia. exists (S (Z.to_nat s)).
    split_and!; [lia | done | | done].
    rewrite (take_S_r _ _ _ Hpivot). apply Forall_app. split; [done|].
    by repeat constructor.
  - rewrite decide_True by lia. exists (Z.to_nat s).
    split_and!; [lia | done | done |].
    rewrite (drop_S _ _ _ Hpivot). by constructor.
Qed.

Lemma InsertionSort_loop_sublist (fuel : nat) (source destination : list A) :
  destination ≠ [] → StronglySorted nlt destination →
  (length destination + length source ≤ fuel)%nat →
  ∃ out, InsertionSort_loop fuel source destination = Ok out ∧
    destination `sublist_of` out.
Proof.
  revert destination.
  induction source as [|element source IH]; intros destination Hne Hs Hfuel.
  { by exists destination. }
  simpl in *.
  destruct (insert_element_sorted fuel destination element)
    as (k & Hk & -> & Hs'); [done | done | lia |].
  simpl.
  destruct (IH (take k destination ++ element :: drop k destination))
    as (out & -> & Hsub).
  { by destruct (take k destination). }
  { done. }
  { rewrite length_app, length_take. simpl. rewrite length_drop. lia. }
  exists out. split; [done|]. etrans; [|exact Hsub].
  rewrite <- (take_drop k destination) at 1.
  apply sublist_app; [done|]. by apply sublist_cons.
Qed.
End insertion_position.

(** X7. One insertion into a non-empty ascending destination puts the
    element at its lower bound: the destination is split in two, every
    element before the new one is less than it, and no element after it
    is.  An element equivalent to elements of the destination therefore
    goes in front of all of them. *)
Theorem insert_element_lower_bound {A : Type} {ord : Ordered A}
    {SW : StrictWeak A} (fuel : nat) (destination : list A) (element : A) :
  destination ≠ [] → ascending destination →
  (length destination ≤ fuel)%nat →
  ∃ before after,
    destination = before ++ after ∧
    insert_element fuel destination element
      = Ok (before ++ element :: after) ∧
    Forall (λ x, elt_lt x element = true) before ∧
    Forall (λ x, elt_lt x element = false) after.
Proof.
  intros Hne Hasc Hfuel.
  destruct (insert_element_position fuel destination element)
    as (k & _ & Hrun & Hlo & Hhi); [done | | done |].
  { apply Sorted_StronglySorted; [apply _|]. by apply ascending_Sorted. }
  exists (take k destination), (drop k destination).
  by rewrite take_drop.
Qed.

Lemma insert_element_lower_bound_witness :
  ∃ before after,
    [(1, "a"); (4, "b"); (4, "c"); (9, "d")]%string = before ++ after ∧
    insert_element 4 [(1, "a"); (4, "b"); (4, "c"); (9, "d")]%string
      (4, "new")%string = Ok (before ++ (4, "new")%string :: after) ∧
    Forall (λ x, elt_lt x (4, "new")%string = true) before ∧
    Forall (λ x, elt_lt x (4, "new")%string = false) after.
Proof.
  apply (insert_element_lower_bound 4
           [(1, "a"); (4, "b"); (4, "c"); (9, "d")]%string (4, "new")%string).
  - done.
  - apply (IsSorted_loop_ascending (1, "a")%string
             [(4, "b"); (4, "c"); (9, "d")]%string).
    reflexivity.
  - simpl. lia.
Defined.

(** X8. [InsertionSort] only inserts: the elements that the destination
    had are still there in the order they had, so among equivalent
    elements of the destination none overtakes another. *)
Theorem InsertionSort_keeps_destination {A : Type} {ord : Ordered A}
    {SW : StrictWeak A} (fuel : nat) (source destination : list A) :
  destination ≠ [] → IsSorted destination = Ok true →
  (length destination + length source ≤ fuel)%nat →
  ∃ out, InsertionSort fuel source destination = Ok out ∧
    destination `sublist_of` out.
Proof.
  intros Hne Hsorted Hfuel. unfold InsertionSort. rewrite Hsorted.
  apply IsSorted_StronglySorted in Hsorted as [_ Hs].
  destruct destination as [|x d]; [done|]. cbn -[InsertionSort_loop].
  by apply InsertionSort_loop_sublist.
Qed.

Lemma InsertionSort_keeps_destination_witness :
  ∃ out, InsertionSort 8 [5; 3; 9; 3] [0; 4; 8] = Ok out ∧
    [0; 4; 8] `sublist_of` out.
Proof.
  apply (InsertionSort_keeps_destination 8 [5; 3; 9; 3] [0; 4; 8]).
  - done.
  - reflexivity.
  - simpl. lia.
Defined.

(** ** BucketSort: how a call stops *)



(** * Any and MetaData *)

Section reflection_facts.
Context {type : Type} `{EqDecision type} {value : type → Type}.
Implicit Types (any : Any type value) (m : gmap N (Any type value)).

Lemma dynamic_cast_Set (T : type) (v : value T) any :
  dynamic_cast T (Any_Set T v any) = Some v.
Proof.
  unfold dynamic_cast, Any_Set. simpl.
  by rewrite (decide_True_pi (eq_refl T)).
Qed.

Lemma dynamic_cast_Set_ne (T T' : type) (v : value T) any :
  T ≠ T' → dynamic_cast T' (Any_Set T v any) = None.
Proof.
  intros Hne. unfold dynamic_cast, Any_Set. simpl.
  by destruct (decide (T = T')).
Qed.

Lemma MetaData_Has_lookup (id : N) m :
  MetaData_Has id m = true ↔ is_Some (m !! id).
Proof. unfold MetaData_Has. apply bool_decide_eq_true. Qed.

Lemma MetaData_Add_eq (T : type) (id : N) (data : value T) m :
  MetaData_Add T id data m =
    if MetaData_Has id m then AssertFailed
    else Done (<[id := Any_Set T data Any_empty]> m, data).
Proof.
  unfold MetaData_Add. destruct (MetaData_Has id m) eqn:Hhas; [done|].
  assert (m !! id = None) as Hnone.
  { apply eq_None_not_Some. intros Hsome%MetaData_Has_lookup. congruence. }
  simpl. unfold map_insert. rewrite Hnone. simpl.
  unfold map_index. rewrite lookup_insert_eq. simpl.
  unfold Any_Is, Cast. rewrite dynamic_cast_Set. cbn -[dynamic_cast Any_Set].
  rewrite lookup_insert_eq. cbn -[dynamic_cast Any_Set].
  by rewrite dynamic_cast_Set.
Qed.

Lemma MetaData_Get_eq (T : type) (id : N) m :
  MetaData_Get T id m =
    match m !! id with
    | Some any =>
        match dynamic_cast T any with
        | Some data => Done (m, data)
        | None => AssertFailed
        end
    | None => AssertFailed
    end.
Proof.
  unfold MetaData_Get, MetaData_Has, map_index.
  destruct (m !! id) as [any|] eqn:Hid.
  - rewrite bool_decide_eq_true_2 by done. simpl. rewrite Hid. simpl.
    unfold Any_Is, Cast. by destruct (dynamic_cast T any).
  - rewrite bool_decide_eq_false_2; [done|]. by intros [? ?].
Qed.
End reflection_facts.

(** X13. [Any::Set] overrides what the [Any] held, and afterwards [Is]
    holds for the type that was set and for no other.  [TryCast] and
    [Cast] hand out the data exactly when [Is] holds.  When it does not
    hold, and so always on an [Any] that was never set, [TryCast] returns
    [false] and leaves [*cast] as it was, and [Cast] calls [Get] through
    the null pointer: it never returns null. *)
Theorem Any_casts {type : Type} `{EqDecision type} {value : type → Type}
    (T T' : type) (v : value T) (any : Any type value)
    (cast : option (value T')) :
  Any_Is T' (Any_Set T v any) = bool_decide (T' = T) ∧
  Cast T (Any_Set T v any) = Done v ∧
  TryCast T (Any_Set T v any) None = (true, Some v) ∧
  (Any_Is T' any = true ↔ ∃ data, Cast T' any = Done data) ∧
  (∀ data, Cast T' any = Done data ↔ TryCast T' any cast = (true, Some data)) ∧
  (Any_Is T' any = false ↔ Cast T' any = NullCall) ∧
  (Any_Is T' any = false ↔ TryCast T' any cast = (false, cast)) ∧
  Any_Is T' (Any_empty : Any type value) = false.
Proof.
  split_and!.
  - unfold Any_Is. case_bool_decide as Heq.
    + subst. by rewrite dynamic_cast_Set.
    + by rewrite dynamic_cast_Set_ne.
  - unfold Cast. by rewrite dynamic_cast_Set.
  - unfold TryCast, Any_Is. by rewrite dynamic_cast_Set.
  - unfold Any_Is, Cast. destruct (dynamic_cast T' any); split;
      [by eexists | done | done | by intros [? ?]].
  - intros data. unfold TryCast, Any_Is, Cast.
    destruct (dynamic_cast T' any); simpl; split; intros; by simplify_eq.
  - unfold Any_Is, Cast. by destruct (dynamic_cast T' any).
  - unfold TryCast, Any_Is. by destruct (dynamic_cast T' any).
  - done.
Qed.

(** X14. [MetaData::Add] never overwrites: on an id that is present it
    stops on its first assertion, whatever type is given.  On an id that
    is absent it returns the data it was given, the id is present
    afterwards, [Get] with the same type returns that data and leaves the
    map as it is, and [Get] with another type stops on an assertion. *)
Theorem MetaData_Add_Get {type : Type} `{EqDecision type}
    {value : type → Type} (T T' : type) (id : N) (data : value T)
    (m : gmap N (Any type value)) :
  (MetaData_Has id m = true → MetaData_Add T id data m = AssertFailed) ∧
  (MetaData_Has id m = false →
     ∃ m', MetaData_Add T id data m = Done (m', data) ∧
       MetaData_Has id m' = true ∧
       MetaData_Get T id m' = Done (m', data) ∧
       (T ≠ T' → MetaData_Get T' id m' = AssertFailed) ∧
       (∀ data', MetaData_Add T id data' m' = AssertFailed)).
Proof.
  rewrite MetaData_Add_eq. split; intros Hhas; rewrite Hhas; [done|].
  eexists. split; [done|].
  assert (MetaData_Has id (<[id:=Any_Set T data Any_empty]> m) = true) as Hin.
  { apply MetaData_Has_lookup. rewrite lookup_insert_eq. by eexists. }
  split_and!; [done | | |].
  - by rewrite MetaData_Get_eq, lookup_insert_eq, dynamic_cast_Set.
  - intros Hne.
    by rewrite MetaData_Get_eq, lookup_insert_eq, dynamic_cast_Set_ne.
  - intros data'. by rewrite MetaData_Add_eq, Hin.
Qed.

Lemma MetaData_Add_Get_witness :
  ∃ m', MetaData_Add (value := sample_value) t_int 7%N (42 : Z) ∅
          = Done (m', 42) ∧
    MetaData_Get t_int 7%N m' = Done (m', 42) ∧
    MetaData_Get t_string 7%N m' = AssertFailed.
Proof.
  destruct (MetaData_Add_Get (value := sample_value) t_int t_string 7%N
              (42 : Z) ∅) as [_ Hadd].
  destruct (Hadd eq_refl) as (m' & Hrun & _ & Hget & Hother & _).
  exists m'. split_and!; [exact Hrun | exact Hget |].
  apply Hother. discriminate.
Defined.

(** X15. [MetaData::Add] on an absent id changes nothing else: for every
    other id, [Has] answers as before and [Get], with any type, returns
    the same data or stops in the same way, each time with the map it was
    given. *)
Theorem MetaData_Add_frame {type : Type} `{EqDecision type}
    {value : type → Type} (T T' : type) (id id' : N) (data : value T)
    (m m' : gmap N (Any type value)) (p : value T) :
  MetaData_Add T id data m = Done (m', p) → id' ≠ id →
  MetaData_Has id' m' = MetaData_Has id' m ∧
  (∀ data', MetaData_Get T' id' m' = Done (m', data') ↔
            MetaData_Get T' id' m = Done (m, data')) ∧
  (MetaData_Get T' id' m' = AssertFailed ↔
   MetaData_Get T' id' m = AssertFailed).
Proof.
  rewrite MetaData_Add_eq. destruct (MetaData_Has id m); [done|].
  intros [= <- <-] Hne. rewrite !MetaData_Get_eq.
  unfold MetaData_Has. rewrite lookup_insert_ne by done.
  split_and!; [done | |].
  - intros data'. destruct (m !! id') as [any|]; [|done].
    destruct (dynamic_cast T' any); [|done].
    split; intros [= ->]; done.
  - destruct (m !! id') as [any|]; [|done].
    by destruct (dynamic_cast T' any).
Qed.

Lemma MetaData_Add_frame_witness :
  MetaData_Has 3%N
    (<[7%N := Any_Set (value := sample_value) t_int (42 : Z) Any_empty]> ∅)
  = MetaData_Has 3%N (∅ : gmap N (Any sample_type sample_value)).
Proof.
  destruct (MetaData_Add_frame (value := sample_value) t_int t_string
              7%N 3%N (42 : Z) ∅
              (<[7%N := Any_Set t_int (42 : Z) Any_empty]> ∅) 42)
    as [Hhas _].
  - reflexivity.
  - discriminate.
  - exact Hhas.
Defined.

(** X16. [MetaData::Get] returns data exactly when the id is present and
    holds a value of exactly the requested type, and then it is the data
    stored there.  It stops on an assertion in every other case, never
    calls through a null pointer, and a successful [Get] leaves the map as
    it is: the two [m_Data[...]] never insert. *)
Theorem MetaData_Get_outcome {type : Type} `{EqDecision type}
    {value : type → Type} (T : type) (id : N)
    (m : gmap N (Any type value)) :
  (∀ m' data, MetaData_Get T id m = Done (m', data) ↔
     m' = m ∧ ∃ any, m !! id = Some any ∧ Cast T any = Done data) ∧
  (MetaData_Get T id m = AssertFailed ↔
     MetaData_Has id m = false ∨
     ∃ any, m !! id = Some any ∧ Any_Is T any = false) ∧
  MetaData_Get T id m ≠ NullCall.
Proof.
  rewrite MetaData_Get_eq. unfold MetaData_Has, Cast, Any_Is.
  destruct (m !! id) as [any|] eqn:Hid.
  - rewrite bool_decide_eq_true_2 by done.
    destruct (dynamic_cast T any) as [d|] eqn:Hcast; split_and!; try done.
    + intros m' data. split.
      * intros [= <- <-]. split; [done|]. exists any. by rewrite Hcast.
      * intros [-> (any' & [= <-] & Hd)]. rewrite Hcast in Hd. by simplify_eq.
    + split; [done|]. intros [?|(any' & [= <-] & Hd)]; [done|].
      by rewrite Hcast in Hd.
    + intros m' data. split; [done|].
      intros [_ (any' & [= <-] & Hd)]. by rewrite Hcast in Hd.
    + split; [|done]. intros _. right. exists any. by rewrite Hcast.
  - rewrite bool_decide_eq_false_2 by (by intros [? ?]).
    split_and!; try done.
    + intros m' data. split; [done|]. by intros [_ (any & ? & _)].
    + split; [by left | done].
Qed.

(** * Further properties of QuickSort *)

Section in_place.
Context {A : Type}.

Lemma get_frame_take_drop (buf buf' : list A) (f s : Z) :
  length buf' = length buf → 0 ≤ f →
  (∀ i, i < f ∨ s ≤ i → get buf' i = get buf i) →
  take (Z.to_nat f) buf' = take (Z.to_nat f) buf ∧
  drop (Z.to_nat s) buf' = drop (Z.to_nat s) buf.
Proof.
  intros Hlen Hf Hframe. split; apply list_eq; intros i.
  - destruct (decide (i < Z.to_nat f)%nat) as [Hi|Hi].
    + rewrite !lookup_take_lt by done. rewrite <- !get_of_nat.
      apply Hframe. lia.
    + by rewrite !lookup_take_ge by lia.
  - rewrite !lookup_drop, <- !get_of_nat. apply Hframe. lia.
Qed.
End in_place.

(** X17. A partition pass works in place on its range: the elements
    before [first] and from [second] on are where they were, and the
    elements of the range are the same elements as before the pass. *)
Theorem partition_in_place {A : Type} {ord : Ordered A} {SW : StrictWeak A}
    (fuel : nat) (buf : list A) (first second : Z) :
  0 ≤ first < second ∧ second ≤ Z.of_nat (length buf) →
  (length buf ≤ fuel)%nat →
  ∃ buf' p, partition fuel buf (first, second) = Ok (buf', p) ∧
    take (Z.to_nat first) buf' = take (Z.to_nat first) buf ∧
    drop (Z.to_nat second) buf' = drop (Z.to_nat second) buf ∧
    slice buf' (Z.to_nat first) (Z.to_nat second)
      ≡ₚ slice buf (Z.to_nat first) (Z.to_nat second).
Proof.
  intros Hrange Hfuel.
  destruct (partition_spec fuel buf first second)
    as (buf' & p & pv & Hrun & Hpart); [done | lia |].
  destruct Hpart as (_ & _ & Hlen & Hperm & Hframe & _).
  destruct (get_frame_take_drop buf buf' first second) as [Htake Hdrop];
    [done | lia | done |].
  exists buf', p. split_and!; [done..|].
  assert (∀ l : list A, (Z.to_nat second ≤ length l)%nat →
    l = take (Z.to_nat first) l
          ++ slice l (Z.to_nat first) (Z.to_nat second)
          ++ drop (Z.to_nat second) l) as Hsplit.
  { intros l Hl. unfold slice.
    rewrite <- (take_drop (Z.to_nat first) l) at 1. f_equal.
    rewrite <- (take_drop (Z.to_nat second - Z.to_nat first)
                  (drop (Z.to_nat first) l)) at 1.
    f_equal. rewrite drop_drop. f_equal. lia. }
  rewrite (Hsplit buf'), (Hsplit buf) in Hperm by lia.
  rewrite Htake, Hdrop in Hperm.
  apply Permutation_app_inv_l in Hperm.
  by apply Permutation_app_inv_r in Hperm.
Qed.

Lemma partition_in_place_witness :
  ∃ buf' p, partition 8 [9; 8; 3; 7; 1; 5; 0; 2] (2, 6) = Ok (buf', p) ∧
    take 2 buf' = [9; 8] ∧ drop 6 buf' = [0; 2].
Proof.
  destruct (partition_in_place 8 [9; 8; 3; 7; 1; 5; 0; 2] 2 6)
    as (buf' & p & Hrun & Htake & Hdrop & _).
  - simpl. lia.
  - simpl. lia.
  - exists buf', p. split_and!; [exact Hrun | exact Htake | exact Hdrop].
Defined.

(** * The sorts on integers *)

Lemma StronglySorted_nlt_Z (l : list Z) :
  StronglySorted nlt l ↔ StronglySorted Z.le l.
Proof.
  rewrite !StronglySorted_pairs. unfold nlt. simpl.
  split; intros Hl i j a b Hij Ha Hb; specialize (Hl i j a b Hij Ha Hb); lia.
Qed.

Lemma IsSorted_unique_Z (l1 l2 : list Z) :
  IsSorted l1 = Ok true → IsSorted l2 = Ok true → l1 ≡ₚ l2 → l1 = l2.
Proof.
  intros [_ H1%StronglySorted_nlt_Z]%IsSorted_StronglySorted
         [_ H2%StronglySorted_nlt_Z]%IsSorted_StronglySorted Hperm.
  apply (Sorted_unique Z.le); [by apply StronglySorted_Sorted.. | done].
Qed.

(** X18. On a non-empty sequence of integers of a safe length [MergeSort]
    and [QuickSort] return the same sequence, and running either of them
    on that result returns it unchanged. *)
Theorem sorts_agree_on_integers (fuel : nat) (collection : list Z) :
  collection ≠ [] → safe_length (length collection) →
  (length collection ≤ fuel)%nat →
  ∃ out, MergeSort fuel collection = Ok out ∧
    QuickSort fuel collection = Ok out ∧
    MergeSort fuel out = Ok out ∧ QuickSort fuel out = Ok out.
Proof.
  intros Hne Hsafe Hfuel.
  destruct (MergeSort_sorted_run fuel collection Hsafe Hfuel)
    as (out & Hm & Hperm & _ & Hasc & [?|Hsorted]); [done|].
  destruct (QuickSort_sorts fuel collection Hne Hfuel)
    as (out' & Hq & Hperm' & Hsorted').
  assert (out' = out) as ->.
  { apply IsSorted_unique_Z; [done | done |]. by rewrite Hperm, Hperm'. }
  assert (length out = length collection) as Hlen
    by (by apply Permutation_length).
  exists out. split_and!; [done | done | |].
  - apply MergeSort_sorted_input; [done | lia].
  - apply QuickSort_sorted_input; [|done | lia].
    intros ->. by apply Permutation_nil_l in Hperm.
Qed.

Lemma sorts_agree_on_integers_witness :
  ∃ out, MergeSort 8 [7; 3; 5; 3; 9; 0; 2; 2] = Ok out ∧
    QuickSort 8 [7; 3; 5; 3; 9; 0; 2; 2] = Ok out.
Proof.
  destruct (sorts_agree_on_integers 8 [7; 3; 5; 3; 9; 0; 2; 2])
    as (out & Hm & Hq & _).
  - done.
  - intros k Hlt Hodd Heven.
    do 2 (destruct k as [|k]; [vm_compute in Hodd, Heven |- *; done|]).
    pose proof (Nat.pow_nonzero 2 k). simpl in Hlt. lia.
  - simpl. lia.
  - exists out. split; [exact Hm | exact Hq].
Defined.
